(** * A fixed-size LRU cache of a function: [src/core/lru_std.hpp]

    Shallow embedding of the class template [lru_cache_using_std<K, V, MAP>]
    and proofs of its functional behaviour, its representation invariant and
    its behaviour on failure.

    Modelling choices, all read off the source:

    - [std::list<K>] is a sequence of nodes.  A node has an identity, and a
      list iterator is the identity of the node it points at: [insert]
      allocates a node that no live or dead iterator denotes, [splice] moves a
      node and keeps its identity, [pop_front] destroys a node.  Using an
      iterator whose node is gone is undefined behaviour.
    - [MAP<K, pair<V, list::iterator>>] is a finite map ([gmap]); a map
      iterator is either [end()] or the position of a key.  The iteration
      order of [MAP] (what [begin()] and [++] show) differs between [std::map]
      and [std::unordered_map] and is not modelled.
    - [size_t] values are only compared ([==], [!=]), never computed with, so
      they are natural numbers here; every [size_t] is one.
    - [assert] is the one of [<cassert>] in a translation unit that does not
      define [NDEBUG]: a failed assertion terminates the program.
    - The cached function may throw; nothing in the class catches.
    - Every member function is a computation in a state monad over the
      object, which can end by returning, by an exception leaving the member
      function, or fatally.  The computation also emits a trace of the calls
      of the cached function and of the evictions (the latter is ghost
      instrumentation, used to state in which order keys leave). *)

From stdpp Require Import gmap list.

Set Default Proof Using "Type*".

(** ** Outcomes *)

Inductive fatal := AssertionFailed | UndefinedBehaviour.

Inductive outcome (E A : Type) :=
  | Ret (a : A)
  | Throw (e : E)
  | Fatal (w : fatal).
Arguments Ret {E A} a.
Arguments Throw {E A} e.
Arguments Fatal {E A} w.

(** ** [std::list] *)

Module StdList.

Definition node := nat.

(** [nodes]: the sequence, front first.  [fresh]: every node ever allocated
    by this list has an identity below it. *)
Record t (A : Type) := Make { nodes : list (node * A); fresh : node }.
Arguments Make {A} nodes fresh.
Arguments nodes {A} _.
Arguments fresh {A} _.

Section ops.
Context {A : Type}.

Definition new : t A := Make [] 0.

Definition empty (l : t A) : bool :=
  match nodes l with [] => true | _ :: _ => false end.

Definition values (l : t A) : list A := (nodes l).*2.

Definition iterators (l : t A) : list node := (nodes l).*1.

(** [l.front()]; undefined on an empty list. *)
Definition front (l : t A) : option A :=
  match nodes l with [] => None | (_, x) :: _ => Some x end.

(** [l.pop_front()]; undefined on an empty list. *)
Definition pop_front (l : t A) : option (t A) :=
  match nodes l with
  | [] => None
  | _ :: rest => Some (Make rest (fresh l))
  end.

(** [l.insert(l.end(), x)]: the new list and the iterator to the new
    element. *)
Definition insert_end (x : A) (l : t A) : t A * node :=
  (Make (nodes l ++ [(fresh l, x)]) (S (fresh l)), fresh l).

Definition without (it : node) (ns : list (node * A)) : list (node * A) :=
  filter (λ n, n.1 ≠ it) ns.

Definition at_node (it : node) (ns : list (node * A)) : option (node * A) :=
  snd <$> list_find (λ n, n.1 = it) ns.

(** [l.splice(l.end(), l, it)]: the node of [it] is unlinked and linked
    again before [end()]; undefined when [it] is not an iterator into
    [l]. *)
Definition splice_end (it : node) (l : t A) : option (t A) :=
  match at_node it (nodes l) with
  | None => None
  | Some n => Some (Make (without it (nodes l) ++ [n]) (fresh l))
  end.
End ops.

End StdList.

(** ** The class *)

Section lru_cache_using_std.
Context {K V E : Type} `{Countable K}.

(** What a call of the cached function does: return or throw. *)
Inductive fn_result := Returns (v : V) | Raises (e : E).

Definition key_tracker_type : Type := StdList.t K.
Local Abbreviation key_to_value_type := (gmap K (V * StdList.node)).

(** [key_to_value_type::iterator]: [None] is [end()]. *)
Definition iterator : Type := option K.

Record lru_cache_using_std := Cache {
  _fn : K → fn_result;
  _capacity : nat;
  _key_tracker : key_tracker_type;
  _key_to_value : gmap K (V * StdList.node);
}.

Inductive event := CallFn (k : K) | Evicted (k : K).

(** *** The monad of member functions *)

Definition M (A : Type) : Type :=
  lru_cache_using_std → outcome E A * lru_cache_using_std * list event.

Definition ret {A} (a : A) : M A := λ s, (Ret a, s, []).

Definition bind {A B} (m : M A) (f : A → M B) : M B := λ s,
  match m s with
  | (Ret a, s', t) => let '(o, s'', t') := f a s' in (o, s'', t ++ t')
  | (Throw e, s', t) => (Throw e, s', t)
  | (Fatal w, s', t) => (Fatal w, s', t)
  end.

Definition this : M lru_cache_using_std := λ s, (Ret s, s, []).
Definition fatal_error {A} (w : fatal) : M A := λ s, (Fatal w, s, []).
Definition emit (ev : event) : M unit := λ s, (Ret (), s, [ev]).
Definition assert (b : bool) : M unit :=
  if b then ret () else fatal_error AssertionFailed.
(** A library call whose precondition may be violated. *)
Definition defined {A} (o : option A) : M A :=
  match o with Some a => ret a | None => fatal_error UndefinedBehaviour end.
Definition set_key_tracker (l : key_tracker_type) : M unit := λ s,
  (Ret (), Cache (_fn s) (_capacity s) l (_key_to_value s), []).
Definition set_key_to_value (m : gmap K (V * StdList.node)) : M unit := λ s,
  (Ret (), Cache (_fn s) (_capacity s) (_key_tracker s) m, []).

(** [_fn(k)] *)
Definition call_fn (k : K) : M V := λ s,
  match _fn s k with
  | Returns v => (Ret v, s, [CallFn k])
  | Raises e => (Throw e, s, [CallFn k])
  end.

Notation "x ← m ; f" := (bind m (λ x, f))
  (at level 20, m at level 100, f at level 200, only parsing).
Notation "m ;; f" := (bind m (λ _, f))
  (at level 100, f at level 200, only parsing, right associativity).

(** *** [MAP] operations *)

Definition map_end : iterator := None.

Definition map_find (k : K) (m : key_to_value_type) : iterator :=
  match m !! k with Some _ => Some k | None => None end.

(** [*it]; undefined for [end()]. *)
Definition map_deref (it : iterator) (m : key_to_value_type)
  : option (V * StdList.node) := it ≫= λ k, m !! k.

(** [m.erase(it)]; undefined for [end()]. *)
Definition map_erase (it : iterator) (m : key_to_value_type)
  : option key_to_value_type :=
  match it with
  | Some k => if m !! k is Some _ then Some (delete k m) else None
  | None => None
  end.

(** [m.insert(make_pair(k, x)).first]: an existing entry is kept. *)
Definition map_insert (k : K) (x : V * StdList.node) (m : key_to_value_type)
  : key_to_value_type * iterator :=
  match m !! k with
  | Some _ => (m, Some k)
  | None => (<[k := x]> m, Some k)
  end.

(** *** Member functions *)

(** The constructor: [_fn(f), _capacity(c)], then [assert(_capacity != 0)]. *)
Definition constructor (f : K → fn_result) (c : nat)
  : outcome E lru_cache_using_std :=
  let s := Cache f c StdList.new ∅ in
  if bool_decide (_capacity s ≠ 0) then Ret s else Fatal AssertionFailed.

Definition evict : M unit :=
  s ← this;
  assert (negb (StdList.empty (_key_tracker s)));;
  k ← defined (StdList.front (_key_tracker s));
  let it := map_find k (_key_to_value s) in
  assert (bool_decide (it ≠ map_end));;
  m ← defined (map_erase it (_key_to_value s));
  set_key_to_value m;;
  s ← this;
  l ← defined (StdList.pop_front (_key_tracker s));
  set_key_tracker l;;
  emit (Evicted k).

Definition insert (k : K) (v : V) : M iterator :=
  s ← this;
  assert (bool_decide (map_find k (_key_to_value s) = map_end));;
  (if bool_decide (size (_key_to_value s) = _capacity s)
   then evict else ret ());;
  s ← this;
  let '(l, it) := StdList.insert_end k (_key_tracker s) in
  set_key_tracker l;;
  s ← this;
  let '(m, r) := map_insert k (v, it) (_key_to_value s) in
  set_key_to_value m;;
  ret r.

(** [operator[]] *)
Definition operator_index (k : K) : M V :=
  s ← this;
  let it := map_find k (_key_to_value s) in
  if bool_decide (it = map_end) then
    v ← call_fn k;
    it ← insert k v;
    s ← this;
    x ← defined (map_deref it (_key_to_value s));
    ret x.1
  else
    x ← defined (map_deref it (_key_to_value s));
    l ← defined (StdList.splice_end x.2 (_key_tracker s));
    set_key_tracker l;;
    s ← this;
    x ← defined (map_deref it (_key_to_value s));
    ret x.1.

(** [get_keys(dst)]: what is written through [dst], in order. *)
Definition get_keys : M (list K) :=
  s ← this; ret (reverse (StdList.values (_key_tracker s))).

Definition end_ : M iterator := ret map_end.

Definition find (k : K) : M iterator :=
  s ← this; ret (map_find k (_key_to_value s)).

Definition front : M iterator :=
  s ← this;
  if StdList.empty (_key_tracker s) then ret map_end
  else
    k ← defined (StdList.front (_key_tracker s));
    let it := map_find k (_key_to_value s) in
    assert (bool_decide (it ≠ map_end));;
    ret it.

Definition capacity : M nat := s ← this; ret (_capacity s).
Definition size_ : M nat := s ← this; ret (size (_key_to_value s)).
Definition empty : M bool :=
  s ← this; ret (bool_decide (_key_to_value s = ∅)).
Definition full : M bool :=
  s ← this; ret (bool_decide (size (_key_to_value s) = _capacity s)).

(** *** Clients

    A client holds the object and calls its public member functions one
    after the other; an exception of the cached function that leaves
    [operator[]] is caught by the client, which then goes on.  A client
    reads what a member function returns; writing into the object through
    a returned reference or iterator is not one of its actions. *)

Inductive call :=
  | Index (k : K)
  | GetKeys
  | End_
  | Find (k : K)
  | Front
  | Capacity
  | Size
  | Empty
  | Full.

Inductive answer :=
  | Value (v : V)
  | Keys (ks : list K)
  | Position (it : iterator)
  | Count (n : nat)
  | Flag (b : bool)
  | Caught (e : E).

Definition fmap_M {A B} (g : A → B) (m : M A) : M B := x ← m; ret (g x).

Definition invoke (c : call) : M answer :=
  match c with
  | Index k => fmap_M Value (operator_index k)
  | GetKeys => fmap_M Keys get_keys
  | End_ => fmap_M Position end_
  | Find k => fmap_M Position (find k)
  | Front => fmap_M Position front
  | Capacity => fmap_M Count capacity
  | Size => fmap_M Count size_
  | Empty => fmap_M Flag empty
  | Full => fmap_M Flag full
  end.

(** [try { ... } catch (E e) { ... }] around one call. *)
Definition try_catch (m : M answer) : M answer := λ s,
  match m s with
  | (Throw e, s', t) => (Ret (Caught e), s', t)
  | r => r
  end.

Fixpoint run (cs : list call) : M (list answer) :=
  match cs with
  | [] => ret []
  | c :: cs => a ← try_catch (invoke c); as_ ← run cs; ret (a :: as_)
  end.

(** The client's program, from the construction of the object on. *)
Definition program (f : K → fn_result) (capacity : nat) (cs : list call)
  : outcome E (list answer) * option lru_cache_using_std * list event :=
  match constructor f capacity with
  | Ret s => let '(o, s', t) := run cs s in (o, Some s', t)
  | Throw e => (Throw e, None, [])
  | Fatal w => (Fatal w, None, [])
  end.

(** The states and traces a client can observe between two calls. *)
Definition reachable (f : K → fn_result) (capacity : nat)
    (s : lru_cache_using_std) (t : list event) : Prop :=
  ∃ cs as_, program f capacity cs = (Ret as_, Some s, t).

(** *** Observations used in the statements *)

Definition cached_keys (s : lru_cache_using_std) : gset K :=
  dom (_key_to_value s).

(** The access order, least recently used first. *)
Definition access_order (s : lru_cache_using_std) : list K :=
  StdList.values (_key_tracker s).

Definition evictions (t : list event) : list K :=
  omap (λ ev, match ev with Evicted k => Some k | CallFn _ => None end) t.

Definition fn_calls (t : list event) : list K :=
  omap (λ ev, match ev with CallFn k => Some k | Evicted _ => None end) t.

End lru_cache_using_std.

Arguments lru_cache_using_std K V E {_ _}.
Arguments fn_result : clear implicits.
Arguments M K V E {_ _} A.
Arguments answer : clear implicits.

(** ** The representation invariant *)

Section invariant.
Context {K V E : Type} `{Countable K}.
Implicit Types (s : lru_cache_using_std K V E) (k : K) (v : V).
Implicit Types (it : StdList.node) (f : K → fn_result V E).

(** The two containers describe the same entries, and each entry of the map
    holds the iterator of the list node that carries its key. *)
Record linked s : Prop := Linked {
  linked_iterators : NoDup (StdList.iterators (_key_tracker s));
  linked_keys : NoDup (access_order s);
  linked_fresh : ∀ it k,
    (it, k) ∈ StdList.nodes (_key_tracker s) →
    it < StdList.fresh (_key_tracker s);
  linked_map_list : ∀ k v it,
    _key_to_value s !! k = Some (v, it) →
    (it, k) ∈ StdList.nodes (_key_tracker s);
  linked_list_map : ∀ it k,
    (it, k) ∈ StdList.nodes (_key_tracker s) →
    ∃ v, _key_to_value s !! k = Some (v, it);
}.

(** Every stored value is what the cached function returns for its key. *)
Definition memoizes s : Prop :=
  ∀ k v it, _key_to_value s !! k = Some (v, it) → _fn s k = Returns v.

Record wf f s : Prop := Wf {
  wf_fn : _fn s = f;
  wf_capacity : _capacity s ≠ 0;
  wf_bound : size (_key_to_value s) ≤ _capacity s;
  wf_linked : linked s;
  wf_memoizes : memoizes s;
}.

(** *** The states the member functions lead to *)

Definition with_containers s (ns : list (StdList.node * K))
    (m : gmap K (V * StdList.node)) : lru_cache_using_std K V E :=
  Cache (_fn s) (_capacity s)
    (StdList.Make ns (StdList.fresh (_key_tracker s))) m.

(** After [evict()]. *)
Definition purged s : lru_cache_using_std K V E * list (event (K := K)) :=
  match StdList.nodes (_key_tracker s) with
  | (_, k0) :: rest =>
      (with_containers s rest (delete k0 (_key_to_value s)), [Evicted k0])
  | [] => (s, [])
  end.

(** After "make space if necessary". *)
Definition with_room s : lru_cache_using_std K V E * list (event (K := K)) :=
  if bool_decide (size (_key_to_value s) = _capacity s) then purged s
  else (s, []).

(** After the two insertions of [insert(k, v)]. *)
Definition recorded k v s : lru_cache_using_std K V E :=
  let it := StdList.fresh (_key_tracker s) in
  Cache (_fn s) (_capacity s)
    (StdList.Make (StdList.nodes (_key_tracker s) ++ [(it, k)]) (S it))
    (<[k := (v, it)]> (_key_to_value s)).

(** After the [splice] of a hit on [k], whose node is [it]. *)
Definition promoted it k s : lru_cache_using_std K V E :=
  with_containers s
    (StdList.without it (StdList.nodes (_key_tracker s)) ++ [(it, k)])
    (_key_to_value s).

(** What [operator[]] does in a state where the invariant holds. *)
Definition indexed k s
  : outcome E V * lru_cache_using_std K V E * list (event (K := K)) :=
  match _key_to_value s !! k with
  | Some (v, it) => (Ret v, promoted it k s, [])
  | None =>
      match _fn s k with
      | Returns v =>
          (Ret v, recorded k v (with_room s).1, CallFn k :: (with_room s).2)
      | Raises e => (Throw e, s, [CallFn k])
      end
  end.

(** The state after a call and the events of the call. *)
Definition effect (c : call (K := K)) s
  : lru_cache_using_std K V E * list (event (K := K)) :=
  match c with
  | Index k => ((indexed k s).1.2, (indexed k s).2)
  | _ => (s, [])
  end.

(** *** The policy on the access order alone

    [touch f n l k]: the access order after [operator[]] on [k] in a cache
    of capacity [n] over [f] whose access order is [l], and the events of
    that call. *)
Definition touch f (n : nat) (l : list K) k : list K * list (event (K := K)) :=
  if decide (k ∈ l) then (filter (λ y, y ≠ k) l ++ [k], [])
  else match f k with
       | Raises _ => (l, [CallFn k])
       | Returns _ =>
           if decide (length l = n)
           then (tail l ++ [k], CallFn k :: (Evicted <$> take 1 l))
           else (l ++ [k], [CallFn k])
       end.

Fixpoint touches f (n : nat) (l : list K) (ks : list K)
  : list K * list (event (K := K)) :=
  match ks with
  | [] => (l, [])
  | k :: ks =>
      let '(l1, t1) := touch f n l k in
      let '(l2, t2) := touches f n l1 ks in
      (l2, t1 ++ t2)
  end.

(** What the client sees of a call of [operator[]] on [k]. *)
Definition seen f k : answer K V E :=
  match f k with Returns v => Value v | Raises e => Caught e end.

(** *** Replaying a trace

    [replay f t r]: the keys resident after the events of [t], starting
    with the keys [r] resident; [None] when [t] calls the function for a
    resident key or evicts a key that is not resident. *)
Fixpoint replay f (t : list (event (K := K))) (r : gset K) : option (gset K) :=
  match t with
  | [] => Some r
  | CallFn k :: t =>
      if decide (k ∈ r) then None
      else replay f t (if f k is Returns _ then {[k]} ∪ r else r)
  | Evicted k :: t =>
      if decide (k ∈ r) then replay f t (r ∖ {[k]}) else None
  end.

End invariant.

(** ** Notions used to describe runs *)

Section notions.
Context {K : Type} `{EqDecision K}.

(** [accessed l k]: the keys of [l] and [k], by last access, when [k] is
    accessed after the keys of [l]. *)
Definition accessed (l : list K) (k : K) : list K :=
  filter (λ y, y ≠ k) l ++ [k].

(** [recency ks]: the keys of [ks], each once, in the order of their last
    occurrence in [ks]: the least recently accessed key first. *)
Definition recency (ks : list K) : list K := foldl accessed [] ks.

(** [operator[]] is the one public member function that writes to the
    object. *)
Definition is_index (c : call (K := K)) : bool :=
  match c with Index _ => true | _ => false end.

End notions.

(** [returns f k]: the function returns on [k]. *)
Definition returns {K V E : Type} (f : K → fn_result V E) (k : K) : bool :=
  match f k with Returns _ => true | Raises _ => false end.

(** ** The scenario of the specification: capacity 2 over [square] *)

Module Scenario.

Definition square (x : nat) : fn_result nat unit := Returns (x * x).

Definition gets : list (call (K := nat)) := [Index 2; Index 3; Index 2; Index 4].

Definition initial : lru_cache_using_std nat nat unit :=
  Cache square 2 StdList.new ∅.

(** The state and the trace after the calls [cs]. *)
Definition after (cs : list (call (K := nat)))
  : lru_cache_using_std nat nat unit * list (event (K := nat)) :=
  let r := run cs initial in (r.1.2, r.2).

Definition outcome_of {A}
    (r : outcome unit A * option (lru_cache_using_std nat nat unit)
         * list (event (K := nat))) :=
  (r.1.1, access_order <$> r.1.2, r.2).

End Scenario.


(** ** Facts about the list model *)

Section list_facts.
Context {A : Type}.
Implicit Types (ns : list (StdList.node * A)) (it : StdList.node) (x : A).

Lemma at_node_elem ns it x :
  NoDup ns.*1 → (it, x) ∈ ns → StdList.at_node it ns = Some (it, x).
Proof.
  unfold StdList.at_node.
  induction ns as [|[it' x'] ns IH]; intros Hnd Hin.
  - by apply elem_of_nil in Hin.
  - apply NoDup_cons in Hnd as [Hfresh Hnd]. simpl.
    apply elem_of_cons in Hin as [Heq | Hin].
    + injection Heq as <- <-. by rewrite decide_True.
    + rewrite decide_False.
      * specialize (IH Hnd Hin).
        destruct (list_find _ ns) as [[i n]|]; simpl in *; congruence.
      * simpl. intros ->. apply Hfresh.
        apply list_elem_of_fmap. by exists (it, x).
Qed.

Lemma at_node_None ns it :
  it ∉ ns.*1 → StdList.at_node it ns = None.
Proof.
  unfold StdList.at_node. intros Hnot.
  destruct (list_find _ ns) as [[i n]|] eqn:Hfind; [|done].
  apply list_find_Some in Hfind as (Hi & Hn & _). simpl in Hn. subst it.
  exfalso. apply Hnot, list_elem_of_fmap. exists n. split; [done|].
  by eapply list_elem_of_lookup_2.
Qed.

Lemma without_absent ns it : it ∉ ns.*1 → StdList.without it ns = ns.
Proof.
  unfold StdList.without.
  induction ns as [|n ns IH]; [done|]. intros Hnot.
  apply not_elem_of_cons in Hnot as [Hne Hnot].
  rewrite filter_cons_True; [|simpl; congruence]. by rewrite IH.
Qed.

Lemma without_present ns it x :
  NoDup ns.*1 → (it, x) ∈ ns → StdList.without it ns ++ [(it, x)] ≡ₚ ns.
Proof.
  unfold StdList.without.
  induction ns as [|[it' x'] ns IH]; intros Hnd Hin.
  - by apply elem_of_nil in Hin.
  - apply NoDup_cons in Hnd as [Hfresh Hnd].
    apply elem_of_cons in Hin as [Heq | Hin].
    + injection Heq as <- <-.
      rewrite filter_cons_False; [|by intros Hne; apply Hne].
      fold (StdList.without it ns). rewrite without_absent; [|done].
      by rewrite Permutation_app_comm.
    + rewrite filter_cons_True.
      * simpl. by rewrite IH.
      * simpl. intros ->. apply Hfresh.
        apply list_elem_of_fmap. by exists (it, x).
Qed.

Lemma filter_ne_absent `{EqDecision A} (l : list A) x :
  x ∉ l → filter (λ y, y ≠ x) l = l.
Proof.
  induction l as [|y l IH]; [done|]. intros Hnot.
  apply not_elem_of_cons in Hnot as [Hne Hnot].
  rewrite filter_cons_True; [|congruence]. by rewrite IH.
Qed.

(** Unlinking the node of [it], which carries [x], removes [x] from the
    sequence of values and keeps the others in their order. *)
Lemma without_values `{EqDecision A} ns it x :
  NoDup ns.*1 → NoDup ns.*2 → (it, x) ∈ ns →
  (StdList.without it ns).*2 = filter (λ y, y ≠ x) ns.*2.
Proof.
  unfold StdList.without.
  induction ns as [|[it' x'] ns IH]; intros Hnd1 Hnd2 Hin; [done|].
  rewrite (fmap_cons snd).
  apply NoDup_cons in Hnd1 as [Hfresh1 Hnd1].
  apply NoDup_cons in Hnd2 as [Hfresh2 Hnd2].
  apply elem_of_cons in Hin as [Heq | Hin].
  - injection Heq as <- <-.
    rewrite (filter_cons_False (λ n, n.1 ≠ it)); [|by intros Hne; apply Hne].
    rewrite (filter_cons_False (λ y, y ≠ x)); [|by intros Hne; apply Hne].
    fold (StdList.without it ns). rewrite without_absent; [|done].
    by rewrite filter_ne_absent.
  - assert (it' ≠ it) as Hne1.
    { intros ->. apply Hfresh1, list_elem_of_fmap. by exists (it, x). }
    assert (x' ≠ x) as Hne2.
    { intros ->. apply Hfresh2, list_elem_of_fmap. by exists (it, x). }
    rewrite (filter_cons_True (λ n, n.1 ≠ it)); [|done].
    rewrite (filter_cons_True (λ y, y ≠ x)); [|done].
    rewrite !fmap_cons. f_equal. by apply IH.
Qed.

End list_facts.

(** ** What the member functions evaluate to *)

Section evaluation.
Context {K V E : Type} `{Countable K}.
Implicit Types (s : lru_cache_using_std K V E) (k : K) (v : V).
Implicit Types (it : StdList.node) (f : K → fn_result V E).

Lemma evict_eval s it0 k0 rest x :
  StdList.nodes (_key_tracker s) = (it0, k0) :: rest →
  _key_to_value s !! k0 = Some x →
  evict s = (Ret (), (purged s).1, (purged s).2).
Proof.
  intros Hns Hk0. destruct s as [f c [ns fr] m]. simpl in *. subst ns.
  unfold evict, purged, with_containers, bind, this, StdList.empty,
    StdList.front, StdList.pop_front, map_find, map_erase. simpl.
  rewrite Hk0. simpl. by rewrite Hk0.
Qed.

Lemma linked_cached_keys s :
  linked s → cached_keys s = list_to_set (access_order s).
Proof.
  intros Hl. apply set_eq. intros k.
  unfold cached_keys, access_order, StdList.values.
  rewrite elem_of_dom, elem_of_list_to_set, list_elem_of_fmap. split.
  - intros [[v it] Hk]. exists (it, k). split; [done|].
    by eapply linked_map_list.
  - intros ([it k'] & -> & Hin).
    destruct (linked_list_map s Hl _ _ Hin) as [v Hk]. by eexists.
Qed.

Lemma linked_size s :
  linked s →
  size (_key_to_value s) = length (StdList.nodes (_key_tracker s)).
Proof.
  intros Hl. rewrite <- size_dom.
  fold (cached_keys s). rewrite linked_cached_keys by done.
  rewrite size_list_to_set by apply Hl.
  unfold access_order, StdList.values. by rewrite length_fmap.
Qed.

Lemma linked_front s it0 k0 rest :
  linked s →
  StdList.nodes (_key_tracker s) = (it0, k0) :: rest →
  ∃ v, _key_to_value s !! k0 = Some (v, it0).
Proof.
  intros Hl Hns. apply (linked_list_map s Hl). rewrite Hns. apply elem_of_cons. by left.
Qed.

Lemma with_room_eval s :
  linked s → _capacity s ≠ 0 →
  (if bool_decide (size (_key_to_value s) = _capacity s)
   then evict else ret ()) s
  = (Ret (), (with_room s).1, (with_room s).2).
Proof.
  intros Hl Hc. unfold with_room. case_bool_decide as Hfull; [|done].
  destruct (StdList.nodes (_key_tracker s)) as [|[it0 k0] rest] eqn:Hns.
  - rewrite linked_size, Hns in Hfull by done. simpl in Hfull. congruence.
  - destruct (linked_front s it0 k0 rest Hl Hns) as [v Hk0].
    by eapply evict_eval.
Qed.

Lemma with_room_fields s :
  _fn (with_room s).1 = _fn s ∧ _capacity (with_room s).1 = _capacity s ∧
  StdList.fresh (_key_tracker (with_room s).1) = StdList.fresh (_key_tracker s).
Proof.
  unfold with_room, purged. case_bool_decide; [|done].
  by destruct (StdList.nodes (_key_tracker s)) as [|[it0 k0] rest].
Qed.

Lemma with_room_lookup_None s k :
  _key_to_value s !! k = None → _key_to_value (with_room s).1 !! k = None.
Proof.
  intros Hk. unfold with_room, purged. case_bool_decide; [|done].
  destruct (StdList.nodes (_key_tracker s)) as [|[it0 k0] rest]; [done|].
  simpl. rewrite lookup_delete. by case_decide.
Qed.

Lemma insert_eval s k v :
  linked s → _capacity s ≠ 0 → _key_to_value s !! k = None →
  insert k v s
  = (Ret (Some k), recorded k v (with_room s).1, (with_room s).2).
Proof.
  intros Hl Hc Hk. unfold insert.
  unfold bind at 1. unfold this at 1.
  unfold bind at 1. unfold map_find. rewrite Hk. simpl.
  unfold bind at 1. rewrite with_room_eval by done.
  pose proof (with_room_lookup_None s k Hk) as Hk'.
  destruct (with_room s) as [s1 t1]. simpl in *.
  unfold bind, this, set_key_tracker, set_key_to_value, map_insert, recorded.
  simpl. rewrite Hk'. simpl. by rewrite app_nil_r.
Qed.

Lemma operator_index_throw s k e :
  _key_to_value s !! k = None → _fn s k = Raises e →
  operator_index k s = (Throw e, s, [CallFn k]).
Proof.
  intros Hk Hf. unfold operator_index, bind, this, map_find, call_fn.
  rewrite Hk. rewrite bool_decide_eq_true_2 by done. by rewrite Hf.
Qed.

Lemma operator_index_miss s k v :
  linked s → _capacity s ≠ 0 →
  _key_to_value s !! k = None → _fn s k = Returns v →
  operator_index k s
  = (Ret v, recorded k v (with_room s).1, CallFn k :: (with_room s).2).
Proof.
  intros Hl Hc Hk Hf. unfold operator_index.
  unfold bind at 1. unfold this at 1. unfold map_find. rewrite Hk.
  rewrite bool_decide_eq_true_2 by done.
  unfold bind at 1. unfold call_fn. rewrite Hf.
  unfold bind at 1. rewrite insert_eval by done.
  unfold bind, this, map_deref, recorded. simpl.
  rewrite lookup_insert_eq. simpl. by rewrite !app_nil_r.
Qed.

Lemma operator_index_hit s k v it :
  linked s → _key_to_value s !! k = Some (v, it) →
  operator_index k s = (Ret v, promoted it k s, []).
Proof.
  intros Hl Hk. unfold operator_index, bind, this, map_find. rewrite Hk.
  rewrite bool_decide_eq_false_2 by done.
  simpl. rewrite Hk. simpl. unfold StdList.splice_end.
  rewrite (at_node_elem _ it k); [|apply Hl|by eapply linked_map_list].
  simpl. by rewrite Hk.
Qed.

End evaluation.

(** ** The member functions keep the invariant *)

Section preservation.
Context {K V E : Type} `{Countable K}.
Implicit Types (s : lru_cache_using_std K V E) (k : K) (v : V).
Implicit Types (it : StdList.node) (f : K → fn_result V E).

Lemma linked_purged s : linked s → linked (purged s).1.
Proof.
  intros Hl. unfold purged.
  destruct (StdList.nodes (_key_tracker s)) as [|[it0 k0] rest] eqn:Hns;
    [done|].
  destruct Hl as [Hit Hks Hfr Hml Hlm].
  unfold access_order, StdList.values, StdList.iterators in *.
  rewrite Hns in *.
  rewrite (fmap_cons fst) in Hit. rewrite (fmap_cons snd) in Hks.
  apply NoDup_cons in Hit as [Hit0 Hit]. apply NoDup_cons in Hks as [Hk0 Hks].
  assert (∀ it k, (it, k) ∈ rest → k ≠ k0) as Hne.
  { intros it k Hin ->. apply Hk0, list_elem_of_fmap. by exists (it, k0). }
  split; simpl; try done.
  - intros it k Hin. apply (Hfr it k), elem_of_cons. by right.
  - intros k v it Hk. apply lookup_delete_Some in Hk as [Hne' Hk].
    apply Hml, elem_of_cons in Hk as [Heq|Hin]; [congruence|done].
  - intros it k Hin.
    destruct (Hlm it k) as [v Hk]; [apply elem_of_cons; by right|].
    exists v. rewrite lookup_delete_ne; [done|]. intros ->. by eapply Hne.
Qed.

Lemma linked_with_room s : linked s → linked (with_room s).1.
Proof.
  intros Hl. unfold with_room. case_bool_decide; [|done].
  by apply linked_purged.
Qed.

Lemma size_with_room s :
  linked s → _capacity s ≠ 0 → size (_key_to_value s) ≤ _capacity s →
  size (_key_to_value (with_room s).1) < _capacity s.
Proof.
  intros Hl Hc Hb. unfold with_room. case_bool_decide as Hfull; [|simpl; lia].
  unfold purged.
  destruct (StdList.nodes (_key_tracker s)) as [|[it0 k0] rest] eqn:Hns.
  - rewrite linked_size, Hns in Hfull by done. simpl in *. congruence.
  - destruct (linked_front s it0 k0 rest Hl Hns) as [v Hk0]. simpl.
    rewrite map_size_delete, Hk0. simpl. lia.
Qed.

Lemma linked_recorded s k v :
  linked s → _key_to_value s !! k = None → linked (recorded k v s).
Proof.
  intros [Hit Hks Hfr Hml Hlm] Hk.
  unfold access_order, StdList.values, StdList.iterators in *.
  split; unfold access_order, StdList.values, StdList.iterators; simpl.
  - rewrite fmap_app. apply NoDup_app. split; [done|]. split.
    + intros it Hin Hin'. apply list_elem_of_fmap in Hin as ([it' k'] & -> & Hin).
      apply Hfr in Hin. simpl in Hin'. apply list_elem_of_singleton in Hin'. lia.
    + apply NoDup_singleton.
  - rewrite fmap_app. apply NoDup_app. split; [done|]. split.
    + intros k' Hin Hin'. apply list_elem_of_fmap in Hin as ([it' k''] & -> & Hin).
      simpl in Hin'. apply list_elem_of_singleton in Hin'. simpl in Hin'. subst k''.
      apply Hlm in Hin as [v' Hk']. congruence.
    + apply NoDup_singleton.
  - intros it k' Hin. apply elem_of_app in Hin as [Hin|Hin].
    + apply Hfr in Hin. lia.
    + apply list_elem_of_singleton in Hin. injection Hin as -> _. lia.
  - intros k' v' it Hk'. apply elem_of_app.
    destruct (decide (k = k')) as [<-|Hne].
    + rewrite lookup_insert_eq in Hk'. injection Hk' as <- <-.
      right. by apply list_elem_of_singleton.
    + rewrite lookup_insert_ne in Hk' by done. left. by eapply Hml.
  - intros it k' Hin. apply elem_of_app in Hin as [Hin|Hin].
    + destruct (Hlm _ _ Hin) as [v' Hk']. exists v'.
      rewrite lookup_insert_ne; [done|]. congruence.
    + apply list_elem_of_singleton in Hin. injection Hin as -> ->.
      exists v. by rewrite lookup_insert_eq.
Qed.

Lemma promoted_nodes s k v it :
  linked s → _key_to_value s !! k = Some (v, it) →
  StdList.nodes (_key_tracker (promoted it k s))
  ≡ₚ StdList.nodes (_key_tracker s).
Proof.
  intros Hl Hk. simpl. apply without_present; [apply Hl|].
  by eapply linked_map_list.
Qed.

Lemma linked_promoted s k v it :
  linked s → _key_to_value s !! k = Some (v, it) → linked (promoted it k s).
Proof.
  intros Hl Hk. pose proof (promoted_nodes s k v it Hl Hk) as Hp.
  destruct Hl as [Hit Hks Hfr Hml Hlm].
  unfold access_order, StdList.values, StdList.iterators in *.
  split; unfold access_order, StdList.values, StdList.iterators.
  - by rewrite Hp.
  - by rewrite Hp.
  - intros it' k'. rewrite Hp. apply Hfr.
  - intros k' v' it'. rewrite Hp. apply Hml.
  - intros it' k'. rewrite Hp. apply Hlm.
Qed.

End preservation.

(** ** Calls and runs *)

Section runs.
Context {K V E : Type} `{Countable K}.
Implicit Types (s : lru_cache_using_std K V E) (k : K) (v : V).
Implicit Types (it : StdList.node) (f : K → fn_result V E).
Implicit Types (t : list (event (K := K))) (c : call (K := K)).

Lemma operator_index_indexed s k :
  linked s → _capacity s ≠ 0 → operator_index k s = indexed k s.
Proof.
  intros Hl Hc. unfold indexed.
  destruct (_key_to_value s !! k) as [[v it]|] eqn:Hk.
  - by eapply operator_index_hit.
  - destruct (_fn s k) as [v|e] eqn:Hf.
    + by apply operator_index_miss.
    + by apply operator_index_throw.
Qed.

Lemma front_eval s :
  linked s →
  front s = (Ret (StdList.front (_key_tracker s)), s, []).
Proof.
  intros Hl. unfold front, bind, this, StdList.empty, StdList.front.
  destruct (StdList.nodes (_key_tracker s)) as [|[it0 k0] rest] eqn:Hns;
    [done|].
  destruct (linked_front s it0 k0 rest Hl Hns) as [v Hk0].
  simpl. unfold map_find. rewrite Hk0.
  by rewrite bool_decide_eq_true_2.
Qed.

Lemma wf_indexed f s k : wf f s → wf f (indexed k s).1.2.
Proof.
  intros [Hf Hc Hb Hl Hm]. unfold indexed.
  destruct (_key_to_value s !! k) as [[v it]|] eqn:Hk; simpl.
  - split; try done. by eapply linked_promoted.
  - destruct (_fn s k) as [v|e] eqn:Hfk; simpl; [|done].
    pose proof (with_room_fields s) as (Hf1 & Hc1 & _).
    pose proof (size_with_room s Hl Hc Hb) as Hlt.
    pose proof (with_room_lookup_None s k Hk) as Hk1.
    pose proof (linked_with_room s Hl) as Hl1.
    assert (memoizes (with_room s).1) as Hm1.
    { unfold with_room, purged. case_bool_decide; [|done].
      destruct (StdList.nodes (_key_tracker s)) as [|[it0 k0] rest]; [done|].
      intros k' v' it' Hk'. simpl in *.
      apply lookup_delete_Some in Hk' as [_ Hk']. by eapply Hm. }
    destruct (with_room s) as [s1 t1]. simpl in *.
    split; simpl; try congruence.
    + rewrite map_size_insert_None by done. lia.
    + by apply linked_recorded.
    + intros k' v' it'. simpl. rewrite lookup_insert. case_decide as Hkk.
      * intros [= <- <-]. subst k'. congruence.
      * intros Hk'. by eapply Hm1.
Qed.

Lemma try_invoke_effect f s c :
  wf f s →
  ∃ a, try_catch (invoke c) s = (Ret a, (effect c s).1, (effect c s).2).
Proof.
  intros Hwf. pose proof (wf_linked f s Hwf) as Hl.
  pose proof (wf_capacity f s Hwf) as Hc.
  destruct c as [k| | |k| | | | |]; unfold try_catch, invoke, fmap_M, bind;
    simpl; try (by eexists).
  - rewrite operator_index_indexed by done.
    destruct (indexed k s) as [[[v|e|w] s'] t] eqn:Hi; simpl.
    + rewrite app_nil_r. by eexists.
    + by eexists.
    + exfalso. unfold indexed in Hi.
      destruct (_key_to_value s !! k) as [[v it]|]; [done|].
      by destruct (_fn s k).
  - rewrite front_eval by done. simpl. by eexists.
Qed.

Lemma wf_effect f s c : wf f s → wf f (effect c s).1.
Proof. intros Hwf. destruct c; try done. by apply wf_indexed. Qed.

Lemma run_cons c cs s :
  run (c :: cs) s
  = bind (try_catch (invoke c))
      (λ a, bind (run cs) (λ as_, ret (a :: as_))) s.
Proof. done. Qed.

(** The calls of a run can be split anywhere: what the first calls leave is
    what the others start from. *)
Lemma run_app cs1 cs2 s as1 s1 t1 as2 s2 t2 :
  run cs1 s = (Ret as1, s1, t1) →
  run cs2 s1 = (Ret as2, s2, t2) →
  run (cs1 ++ cs2) s = (Ret (as1 ++ as2), s2, t1 ++ t2).
Proof.
  revert s as1 t1. induction cs1 as [|c cs1 IH]; intros s as1 t1 H1 H2.
  - injection H1 as <- <- <-. done.
  - rewrite <- app_comm_cons, run_cons. rewrite run_cons in H1.
    unfold bind at 1. unfold bind at 1 in H1.
    destruct (try_catch (invoke c) s) as [[[a|e|w] s0] t0]; try done.
    unfold bind in H1 |- *.
    destruct (run cs1 s0) as [[[as0|e|w] s0'] t0'] eqn:Hr; try done.
    simpl in H1. injection H1 as <- <- <-.
    rewrite (IH s0 as0 t0' Hr H2). simpl.
    by rewrite !app_nil_r, app_assoc.
Qed.

(** Induction over the calls of a run. *)
Lemma run_invariant f (P : lru_cache_using_std K V E → list event → Prop) :
  (∀ s t c, wf f s → P s t → P (effect c s).1 (t ++ (effect c s).2)) →
  ∀ cs s t0, wf f s → P s t0 →
  ∃ as_ s' t,
    run cs s = (Ret as_, s', t) ∧ wf f s' ∧ P s' (t0 ++ t).
Proof.
  intros Hstep cs. induction cs as [|c cs IH]; intros s t0 Hwf HP.
  - exists [], s, []. by rewrite app_nil_r.
  - destruct (try_invoke_effect f s c Hwf) as [a Ha].
    destruct (IH (effect c s).1 (t0 ++ (effect c s).2)) as (as_ & s' & t & Hr & Hwf' & HP').
    { by apply wf_effect. }
    { by apply Hstep. }
    exists (a :: as_), s', ((effect c s).2 ++ t).
    split; [|split; [done|by rewrite app_assoc]].
    simpl. unfold bind at 1. rewrite Ha.
    unfold bind. rewrite Hr. simpl. by rewrite app_nil_r.
Qed.

Lemma wf_constructor f n s : constructor f n = Ret s → wf f s.
Proof.
  unfold constructor. simpl. case_bool_decide as Hn; [|done].
  intros [= <-]. split; simpl; try done.
  - rewrite map_size_empty. lia.
  - split; simpl; try done; try apply NoDup_nil_2.
    + intros it k Hin. by apply elem_of_nil in Hin.
    + intros it k Hin. by apply elem_of_nil in Hin.
Qed.

Lemma constructor_Ret f n s :
  constructor f n = Ret s ↔ n ≠ 0 ∧ s = Cache f n StdList.new ∅.
Proof.
  unfold constructor. simpl. case_bool_decide as Hn; split.
  - by intros [= <-].
  - by intros [_ ->].
  - done.
  - by intros [? _].
Qed.

(** Every program of a client, over a cache of capacity [n ≠ 0], runs to
    its end, and what holds initially and is kept by each call holds then. *)
Lemma program_invariant f n (P : lru_cache_using_std K V E → list event → Prop) :
  n ≠ 0 →
  P (Cache f n StdList.new ∅) [] →
  (∀ s t c, wf f s → P s t → P (effect c s).1 (t ++ (effect c s).2)) →
  ∀ cs, ∃ as_ s t,
    program f n cs = (Ret as_, Some s, t) ∧ wf f s ∧ P s t.
Proof.
  intros Hn H0 Hstep cs. unfold program.
  destruct (constructor f n) as [s0| |] eqn:Hc0.
  2,3: unfold constructor in Hc0; simpl in Hc0;
       by rewrite bool_decide_eq_true_2 in Hc0.
  pose proof (wf_constructor f n s0 Hc0) as Hwf.
  apply constructor_Ret in Hc0 as [_ ->].
  destruct (run_invariant f P Hstep cs _ [] Hwf H0) as (as_ & s' & t & Hr & Hwf' & HP).
  exists as_, s', t. by rewrite Hr.
Qed.

Lemma reachable_invariant f n (P : lru_cache_using_std K V E → list event → Prop) s t :
  P (Cache f n StdList.new ∅) [] →
  (∀ s t c, wf f s → P s t → P (effect c s).1 (t ++ (effect c s).2)) →
  reachable f n s t → wf f s ∧ P s t.
Proof.
  intros H0 Hstep (cs & as_ & Hp).
  assert (n ≠ 0) as Hn.
  { intros ->. unfold program in Hp. by simpl in Hp. }
  destruct (program_invariant f n P Hn H0 Hstep cs) as (as' & s' & t' & Hp' & Hwf & HP).
  rewrite Hp in Hp'. by injection Hp' as -> -> ->.
Qed.

Lemma reachable_wf f n s t : reachable f n s t → wf f s.
Proof.
  intros Hr.
  by destruct (reachable_invariant f n (λ _ _, True) s t I (λ _ _ _ _ _, I) Hr).
Qed.

End runs.

(** ** The cache follows the policy *)

Section policy.
Context {K V E : Type} `{Countable K}.
Implicit Types (s : lru_cache_using_std K V E) (k : K) (v : V).
Implicit Types (it : StdList.node) (f : K → fn_result V E).
Implicit Types (t : list (event (K := K))) (l ks : list K).

Lemma resident_order s k :
  linked s → k ∈ access_order s ↔ is_Some (_key_to_value s !! k).
Proof.
  intros Hl. rewrite <- elem_of_dom. fold (cached_keys s).
  rewrite linked_cached_keys by done. by rewrite elem_of_list_to_set.
Qed.

Lemma access_order_length s :
  linked s → length (access_order s) = size (_key_to_value s).
Proof.
  intros Hl. rewrite linked_size by done.
  unfold access_order, StdList.values. by rewrite length_fmap.
Qed.

Lemma indexed_touch f s k :
  wf f s →
  access_order (indexed k s).1.2
  = (touch f (_capacity s) (access_order s) k).1
  ∧ (indexed k s).2 = (touch f (_capacity s) (access_order s) k).2.
Proof.
  intros [Hf Hc Hb Hl Hm]. unfold indexed, touch.
  pose proof (resident_order s k Hl) as Hres.
  pose proof (access_order_length s Hl) as Hlen.
  destruct (_key_to_value s !! k) as [[v it]|] eqn:Hk.
  - rewrite decide_True by (by apply Hres). simpl. split; [|done].
    unfold access_order, StdList.values. simpl. rewrite fmap_app. simpl.
    f_equal. apply without_values; [apply Hl..|].
    by eapply linked_map_list.
  - rewrite decide_False by (rewrite Hres; by intros [? ?]).
    rewrite <- Hf. destruct (_fn s k) as [v|e]; [|done].
    unfold with_room, purged. rewrite Hlen.
    case_bool_decide as Hfull.
    + rewrite decide_True by done. unfold access_order, StdList.values.
      destruct (StdList.nodes (_key_tracker s)) as [|[it0 k0] rest] eqn:Hns;
        simpl.
      * by rewrite Hns.
      * split; [|done]. by rewrite fmap_app.
    + rewrite decide_False by done. simpl. split; [|done].
      unfold access_order, StdList.values. simpl. by rewrite fmap_app.
Qed.

Lemma indexed_capacity s k : _capacity (indexed k s).1.2 = _capacity s.
Proof.
  unfold indexed. destruct (_key_to_value s !! k) as [[v it]|]; [done|].
  destruct (_fn s k); [|done]. simpl. apply with_room_fields.
Qed.

Lemma indexed_outcome f s k :
  wf f s →
  (indexed k s).1.1
  = match f k with Returns v => Ret v | Raises e => Throw e end.
Proof.
  intros [Hf Hc Hb Hl Hm]. unfold indexed.
  destruct (_key_to_value s !! k) as [[v it]|] eqn:Hk; simpl.
  - apply Hm in Hk. rewrite <- Hf. by rewrite Hk.
  - rewrite <- Hf. by destruct (_fn s k).
Qed.

Lemma try_index_seen f s k :
  wf f s →
  try_catch (invoke (Index k)) s
  = (Ret (seen f k), (indexed k s).1.2, (indexed k s).2).
Proof.
  intros Hwf. unfold try_catch, invoke, fmap_M, bind, seen.
  rewrite operator_index_indexed by apply Hwf.
  pose proof (indexed_outcome f s k Hwf) as Ho.
  destruct (indexed k s) as [[o s'] t]. simpl in *. subst o.
  destruct (f k); simpl; [by rewrite app_nil_r|done].
Qed.

(** A run of [operator[]] calls refines the policy. *)
Lemma run_gets_touches f ks : ∀ s,
  wf f s →
  ∃ s' t,
    run (Index <$> ks) s = (Ret (seen f <$> ks), s', t)
    ∧ wf f s' ∧ _capacity s' = _capacity s
    ∧ access_order s' = (touches f (_capacity s) (access_order s) ks).1
    ∧ t = (touches f (_capacity s) (access_order s) ks).2.
Proof.
  induction ks as [|k ks IH]; intros s Hwf.
  - exists s, []. by simpl.
  - pose proof (try_index_seen f s k Hwf) as Hk.
    pose proof (indexed_touch f s k Hwf) as [Ho Ht].
    pose proof (wf_indexed f s k Hwf) as Hwf1.
    pose proof (indexed_capacity s k) as Hc1.
    destruct (IH _ Hwf1) as (s' & t & Hr & Hwf' & Hc' & Ho' & Ht').
    exists s', ((indexed k s).2 ++ t).
    rewrite Hc1, Ho in Ho', Ht'. rewrite Ht.
    split.
    { rewrite !fmap_cons, run_cons. unfold bind at 1. rewrite Hk.
      unfold bind. rewrite Hr. simpl. by rewrite app_nil_r, Ht. }
    simpl. destruct (touch f (_capacity s) (access_order s) k) as [l1 t1].
    simpl in *.
    destruct (touches f (_capacity s) l1 ks) as [l2 t2]. simpl in *.
    split; [done|]. split; [congruence|]. split; [done|congruence].
Qed.

End policy.

(** ** Facts about the policy and about traces *)

Section policy_facts.
Context {K V E : Type} `{Countable K}.
Implicit Types (k : K) (f : K → fn_result V E).
Implicit Types (t : list (event (K := K))) (l ks : list K) (r : gset K).

Lemma evictions_app t1 t2 : evictions (t1 ++ t2) = evictions t1 ++ evictions t2.
Proof. apply omap_app. Qed.

Lemma fn_calls_app t1 t2 : fn_calls (t1 ++ t2) = fn_calls t1 ++ fn_calls t2.
Proof. apply omap_app. Qed.

Lemma evictions_Evicted l : evictions (Evicted <$> l) = l.
Proof. induction l as [|k l IH]; [done|]. simpl. f_equal. exact IH. Qed.

Lemma fn_calls_Evicted l : fn_calls (Evicted <$> l) = [].
Proof. by induction l. Qed.

(** Fresh, pairwise distinct keys go through the cache first in, first
    out. *)
Lemma touches_fresh f n ks : ∀ l,
  (∀ k, k ∈ ks → ∃ v, f k = Returns v) →
  NoDup ks → (∀ k, k ∈ ks → k ∉ l) → length l ≤ n → n ≠ 0 →
  (touches f n l ks).1 = drop (length (l ++ ks) - n) (l ++ ks)
  ∧ evictions (touches f n l ks).2 = take (length (l ++ ks) - n) (l ++ ks)
  ∧ fn_calls (touches f n l ks).2 = ks.
Proof.
  induction ks as [|k ks IH]; intros l Hf Hnd Hfresh Hlen Hn.
  - simpl. rewrite app_nil_r.
    replace (length l - n) with 0 by lia. by rewrite take_0.
  - apply NoDup_cons in Hnd as [Hk Hnd].
    destruct (Hf k) as [v Hv]; [by left|].
    assert (k ∉ l) as Hkl by (apply Hfresh; by left).
    simpl. unfold touch. rewrite decide_False by done. rewrite Hv.
    case_decide as Hfull.
    + destruct l as [|k0 l]; [simpl in *; lia|]. simpl in Hfull.
      destruct (IH (l ++ [k])) as (Ho & He & Hc).
      * intros k' Hk'. apply Hf. by right.
      * done.
      * intros k' Hk' Hin. apply elem_of_app in Hin as [Hin|Hin].
        -- apply (Hfresh k'); [by right|]. by right.
        -- apply list_elem_of_singleton in Hin. by subst.
      * rewrite length_app. simpl. lia.
      * done.
      * simpl tail. simpl take.
        destruct (touches f n (l ++ [k]) ks) as [l2 t2]. simpl in *.
        rewrite <- (app_assoc l [k] ks) in Ho, He. simpl in Ho, He.
        assert (S (length (l ++ k :: ks)) - n
                = S (length (l ++ k :: ks) - n)) as ->
          by (rewrite length_app; simpl; lia).
        simpl. by rewrite Ho, He, Hc.
    + destruct (IH (l ++ [k])) as (Ho & He & Hc).
      * intros k' Hk'. apply Hf. by right.
      * done.
      * intros k' Hk' Hin. apply elem_of_app in Hin as [Hin|Hin].
        -- apply (Hfresh k'); [by right|done].
        -- apply list_elem_of_singleton in Hin. by subst.
      * rewrite length_app. simpl. lia.
      * done.
      * destruct (touches f n (l ++ [k]) ks) as [l2 t2]. simpl in *.
        rewrite <- (app_assoc l [k] ks) in Ho, He. simpl in Ho, He.
        by rewrite Ho, He, Hc.
Qed.

Lemma replay_app f t1 t2 r :
  replay f (t1 ++ t2) r = replay f t1 r ≫= replay f t2.
Proof.
  revert r. induction t1 as [|[k|k] t1 IH]; intros r; simpl; [done|..];
    by case_decide.
Qed.

(** A resident key stays resident until the trace evicts it, and the
    function is not called for it before. *)
Lemma replay_resident_call f t2 : ∀ r k t3,
  k ∈ r → is_Some (replay f (t2 ++ CallFn k :: t3) r) → Evicted k ∈ t2.
Proof.
  induction t2 as [|[k'|k'] t2 IH]; intros r k t3 Hk Hsome; simpl in Hsome.
  - rewrite decide_True in Hsome by done. by destruct Hsome.
  - case_decide; [by destruct Hsome|].
    right. eapply IH; [|done]. destruct (f k'); set_solver.
  - case_decide; [|by destruct Hsome].
    destruct (decide (k = k')) as [->|Hne]; [by left|].
    right. eapply IH; [|done]. set_solver.
Qed.

Lemma replay_no_second_call f t r r' k t1 t2 t3 v :
  replay f t r = Some r' →
  t = t1 ++ CallFn k :: t2 ++ CallFn k :: t3 →
  f k = Returns v →
  Evicted k ∈ t2.
Proof.
  intros Hrep -> Hv. rewrite replay_app in Hrep.
  destruct (replay f t1 r) as [r1|] eqn:Hr1; [|done]. simpl in Hrep.
  case_decide; [done|]. rewrite Hv in Hrep.
  eapply (replay_resident_call f t2 ({[k]} ∪ r1) k t3); [set_solver|].
  by rewrite Hrep.
Qed.

End policy_facts.

(** ** The scenario *)

Example scenario_runs :
  Scenario.outcome_of (program Scenario.square 2 Scenario.gets)
  = (Ret [Value 4; Value 9; Value 4; Value 16], Some [2; 4],
     [CallFn 2; CallFn 3; CallFn 4; Evicted 3]).
Proof. vm_compute. reflexivity. Qed.

Lemma scenario_reachable cs :
  reachable Scenario.square 2 (Scenario.after cs).1 (Scenario.after cs).2.
Proof.
  destruct (program_invariant Scenario.square 2 (λ _ _, True) ltac:(done) I
              (λ _ _ _ _ _, I) cs) as (as_ & s & t & Hp & _).
  exists cs, as_. rewrite Hp. unfold program in Hp. simpl in Hp.
  unfold Scenario.after, Scenario.initial.
  destruct (run cs _) as [[o s'] t']. simpl. by injection Hp as -> -> ->.
Qed.

(** ** The properties of the cache *)

Section properties.
Context {K V E : Type} `{Countable K}.
Implicit Types (s : lru_cache_using_std K V E) (k : K) (v : V) (e : E).
Implicit Types (it : StdList.node) (f : K → fn_result V E).
Implicit Types (t : list (event (K := K))) (l ks : list K).

Lemma fn_calls_with_room s : fn_calls (with_room s).2 = [].
Proof.
  unfold with_room, purged. case_bool_decide; [|done].
  by destruct (StdList.nodes (_key_tracker s)) as [|[it0 k0] rest].
Qed.

(** C1.  In every state a client can reach in a cache over [f], for a key
    [k] on which [f] returns [v], [operator[]] returns [v] and leaves [k]
    cached with [v]: on a miss [f] is called, once and on [k]; on a hit the
    stored value is [v] and [f] is not called. *)
Theorem get_returns_function_value f n s t k v :
  reachable f n s t → f k = Returns v →
  ∃ s' t',
    operator_index k s = (Ret v, s', t')
    ∧ (∃ it, _key_to_value s' !! k = Some (v, it))
    ∧ match _key_to_value s !! k with
      | None => fn_calls t' = [k]
      | Some (v0, _) => v0 = v ∧ fn_calls t' = []
      end.
Proof.
  intros Hr Hv. apply reachable_wf in Hr as [Hf Hc Hb Hl Hm].
  rewrite operator_index_indexed by done. unfold indexed.
  destruct (_key_to_value s !! k) as [[v0 it]|] eqn:Hk.
  - pose proof (Hm _ _ _ Hk) as Hv0. rewrite Hf, Hv in Hv0.
    injection Hv0 as <-. eexists _, _. split; [done|]. split; [|done].
    exists it. exact Hk.
  - rewrite Hf, Hv. eexists _, _. split; [done|]. split.
    + eexists. simpl. apply lookup_insert_eq.
    + simpl. by rewrite fn_calls_with_room.
Qed.

(** C7.  When the cached function throws [e] on a miss for [k],
    [operator[]] ends with that exception, in the state it started in, and
    has called the function and evicted nothing; asking again calls the
    function again. *)
Theorem failure_leaves_cache_unchanged s k e :
  _key_to_value s !! k = None → _fn s k = Raises e →
  operator_index k s = (Throw e, s, [CallFn k])
  ∧ evictions [CallFn k] = []
  ∧ run [Index k; Index k] s
    = (Ret [Caught e; Caught e], s, [CallFn k; CallFn k]).
Proof.
  intros Hk Hf. pose proof (operator_index_throw s k e Hk Hf) as Ht.
  split; [done|]. split; [done|].
  assert (try_catch (invoke (Index k)) s = (Ret (Caught e), s, [CallFn k]))
    as Hc.
  { unfold try_catch, invoke, fmap_M, bind. by rewrite Ht. }
  rewrite run_cons. unfold bind at 1. rewrite Hc.
  unfold bind at 1. rewrite run_cons. unfold bind at 1. by rewrite Hc.
Qed.

(** C8.  The constructor ends fatally, by its assertion, for capacity 0;
    for every other capacity it returns a cache over the given function,
    of that capacity, with no entries. *)
Theorem constructor_requires_capacity f :
  constructor f 0 = Fatal AssertionFailed
  ∧ ∀ n, ∃ s,
      constructor f (S n) = Ret s
      ∧ _fn s = f ∧ _capacity s = S n
      ∧ _key_to_value s = ∅ ∧ StdList.nodes (_key_tracker s) = []
      ∧ size_ s = (Ret 0, s, []) ∧ empty s = (Ret true, s, []).
Proof.
  split; [done|]. intros n. eexists. split; [done|]. by repeat split.
Qed.

Lemma effect_capacity c s : _capacity (effect c s).1 = _capacity s.
Proof. destruct c; try done. apply indexed_capacity. Qed.

(** C4.  Whatever the client calls on a cache of capacity [n > 0], the
    program runs to its end, and after each of its calls (after the first
    [i], for every [i]) [size()] is at most [capacity()], which is [n], and
    the list has as many nodes as the map has entries. *)
Theorem size_never_exceeds_capacity f n cs i :
  0 < n →
  ∃ as1 s1 t1 as2 s2 t2 m,
    program f n (take i cs) = (Ret as1, Some s1, t1)
    ∧ run (drop i cs) s1 = (Ret as2, s2, t2)
    ∧ program f n cs = (Ret (as1 ++ as2), Some s2, t1 ++ t2)
    ∧ size_ s1 = (Ret m, s1, []) ∧ capacity s1 = (Ret n, s1, [])
    ∧ m ≤ n ∧ length (StdList.nodes (_key_tracker s1)) = m.
Proof.
  intros Hn.
  destruct (program_invariant f n (λ s _, _capacity s = n) ltac:(lia) eq_refl)
    with (cs := take i cs) as (as1 & s1 & t1 & Hp & Hwf & Hc).
  { intros s t c _ Hc. by rewrite effect_capacity. }
  destruct (run_invariant f (λ _ _, True) (λ _ _ _ _ _, I) (drop i cs) s1 []
              Hwf I) as (as2 & s2 & t2 & Hr & _ & _).
  exists as1, s1, t1, as2, s2, t2, (size (_key_to_value s1)).
  split; [done|]. split; [done|]. split.
  { unfold program in Hp |- *.
    destruct (constructor f n) as [s0| |]; try done.
    destruct (run (take i cs) s0) as [[o1 s1'] t1'] eqn:Hr1.
    injection Hp as -> -> ->.
    rewrite <- (take_drop i cs) at 1. by rewrite (run_app _ _ _ _ _ _ _ _ _ Hr1 Hr). }
  unfold size_, capacity, bind, this, ret. rewrite Hc.
  split; [done|]. split; [done|]. split.
  - rewrite <- Hc. apply Hwf.
  - symmetry. apply linked_size, Hwf.
Qed.

(** C5.  Whatever the client calls on a cache of capacity [n > 0], the
    program runs to its end, and then the keys of the map are the keys of
    the list, no key and no node occurs twice in the list, and the
    iterator stored with a key denotes a node of the list, the one that
    carries this key. *)
Theorem containers_stay_linked f n cs :
  0 < n →
  ∃ as_ s t,
    program f n cs = (Ret as_, Some s, t)
    ∧ cached_keys s = list_to_set (access_order s)
    ∧ NoDup (access_order s)
    ∧ NoDup (StdList.iterators (_key_tracker s))
    ∧ ∀ k v it,
        _key_to_value s !! k = Some (v, it) →
        StdList.at_node it (StdList.nodes (_key_tracker s)) = Some (it, k).
Proof.
  intros Hn.
  destruct (program_invariant f n (λ _ _, True) ltac:(lia) I)
    with (cs := cs) as (as_ & s & t & Hp & Hwf & _); [done|].
  pose proof (wf_linked f s Hwf) as Hl.
  exists as_, s, t. split; [done|]. split; [by apply linked_cached_keys|].
  split; [apply Hl|]. split; [apply Hl|].
  intros k v it Hk. apply at_node_elem; [apply Hl|].
  by eapply linked_map_list.
Qed.

(** C9.  In every state a client can reach, [front()] returns, changes
    nothing and emits nothing; it returns [end()] when the cache is empty,
    and otherwise the position of the entry of the key at the front of
    the access order. *)
Theorem front_is_least_recently_used f n s t :
  reachable f n s t →
  ∃ r,
    front s = (Ret r, s, [])
    ∧ match access_order s with
      | [] => empty s = (Ret true, s, []) ∧ r = map_end
      | k :: _ =>
          empty s = (Ret false, s, [])
          ∧ r = Some k ∧ is_Some (map_deref r (_key_to_value s))
      end.
Proof.
  intros Hr. apply reachable_wf in Hr as [Hf Hc Hb Hl Hm].
  rewrite front_eval by done. eexists. split; [done|].
  pose proof (linked_cached_keys s Hl) as Hd.
  unfold empty, bind, this, ret, StdList.front.
  unfold access_order, StdList.values in *.
  destruct (StdList.nodes (_key_tracker s)) as [|[it0 k0] rest] eqn:Hns.
  - simpl in *. unfold cached_keys in Hd.
    apply dom_empty_inv_L in Hd. rewrite Hd.
    by rewrite bool_decide_eq_true_2.
  - destruct (linked_front s it0 k0 rest Hl Hns) as [v Hk0]. simpl.
    rewrite bool_decide_eq_false_2.
    + split; [done|]. split; [done|]. by rewrite Hk0.
    + intros Hm0. by rewrite Hm0 in Hk0.
Qed.

(** C10.  In every state a client can reach in which [k] is cached, with
    value [v] and iterator [it], [operator[]] on [k] returns [v] and emits
    nothing; it changes neither the map, nor the function, nor the
    capacity, so [size()] and the cached keys are what they were; in the
    list the node of [it] is moved to the back and the other nodes keep
    their order. *)
Theorem hit_only_promotes f n s t k v it :
  reachable f n s t → _key_to_value s !! k = Some (v, it) →
  ∃ s',
    operator_index k s = (Ret v, s', [])
    ∧ _key_to_value s' = _key_to_value s
    ∧ _fn s' = _fn s ∧ _capacity s' = _capacity s
    ∧ (size_ s').1.1 = (size_ s).1.1
    ∧ cached_keys s' = cached_keys s
    ∧ StdList.nodes (_key_tracker s')
      = StdList.without it (StdList.nodes (_key_tracker s)) ++ [(it, k)]
    ∧ access_order s' = filter (λ y, y ≠ k) (access_order s) ++ [k]
    ∧ filter (λ y, y ≠ k) (access_order s')
      = filter (λ y, y ≠ k) (access_order s).
Proof.
  intros Hr Hk. apply reachable_wf in Hr as [Hf Hc Hb Hl Hm].
  exists (promoted it k s). split; [by apply operator_index_hit|].
  do 6 (split; [done|]).
  assert (access_order (promoted it k s)
          = filter (λ y, y ≠ k) (access_order s) ++ [k]) as Ho.
  { unfold access_order, StdList.values. simpl. rewrite fmap_app. simpl.
    f_equal. apply without_values; [apply Hl..|].
    by eapply linked_map_list. }
  split; [done|]. rewrite Ho, filter_app.
  rewrite (filter_cons_False (λ y, y ≠ k)) by (by intros Hne; apply Hne).
  rewrite filter_nil, app_nil_r, list_filter_filter.
  apply list_filter_iff. tauto.
Qed.

Lemma program_gets_touches f n ks :
  n ≠ 0 →
  ∃ s t,
    program f n (Index <$> ks) = (Ret (seen f <$> ks), Some s, t)
    ∧ wf f s
    ∧ access_order s = (touches f n [] ks).1
    ∧ t = (touches f n [] ks).2.
Proof.
  intros Hn. unfold program.
  assert (constructor f n = Ret (Cache f n StdList.new ∅)) as Hc
    by (by apply constructor_Ret).
  rewrite Hc. pose proof (wf_constructor f n _ Hc) as Hwf.
  destruct (run_gets_touches f ks _ Hwf) as (s & t & Hr & Hwf' & _ & Ho & Ht).
  exists s, t. by rewrite Hr.
Qed.

(** C2.  In a cache of capacity [n > 0], [operator[]] on more than [n]
    pairwise distinct keys [ks], on which the function returns, leaves
    exactly the last [n] of them cached, in their order, and has evicted
    the others, in their order. *)
Theorem distinct_keys_leave_first_in_first_out f n ks :
  0 < n → NoDup ks → n < length ks →
  (∀ k, k ∈ ks → ∃ v, f k = Returns v) →
  ∃ s t,
    program f n (Index <$> ks) = (Ret (seen f <$> ks), Some s, t)
    ∧ cached_keys s = list_to_set (drop (length ks - n) ks)
    ∧ access_order s = drop (length ks - n) ks
    ∧ evictions t = take (length ks - n) ks
    ∧ fn_calls t = ks.
Proof.
  intros Hn Hnd Hlen Hf.
  destruct (program_gets_touches f n ks) as (s & t & Hp & Hwf & Ho & Ht);
    [lia|].
  destruct (touches_fresh f n ks []) as (Ho' & He & Hc); try done.
  - intros k _ Hin. by apply elem_of_nil in Hin.
  - simpl. lia.
  - lia.
  - simpl in *. exists s, t. split; [done|].
    rewrite linked_cached_keys by apply Hwf.
    rewrite Ho, Ht, Ho', He, Hc. done.
Qed.

(** C3.  In a cache of capacity 2 over a function that returns on the
    pairwise distinct keys [A], [B] and [C]: after [operator[]] on [A],
    [B] and [A] again the function has been called twice and [A] is the
    most recently used key; [operator[]] on [C] then evicts [B], and
    exactly [A] and [C] are cached. *)
Theorem hit_promotes_before_eviction f (A B C : K) vA vB vC :
  A ≠ B → A ≠ C → B ≠ C →
  f A = Returns vA → f B = Returns vB → f C = Returns vC →
  (∃ s t,
     program f 2 [Index A; Index B; Index A]
     = (Ret [Value vA; Value vB; Value vA], Some s, t)
     ∧ access_order s = [B; A] ∧ t = [CallFn A; CallFn B])
  ∧ ∃ s t,
      program f 2 [Index A; Index B; Index A; Index C]
      = (Ret [Value vA; Value vB; Value vA; Value vC], Some s, t)
      ∧ t = [CallFn A; CallFn B; CallFn C; Evicted B]
      ∧ evictions t = [B]
      ∧ cached_keys s = {[A; C]}
      ∧ access_order s = [A; C].
Proof.
  intros HAB HAC HBC HA HB HC.
  assert (touch f 2 [] A = ([A], [CallFn A])) as T1.
  { unfold touch. rewrite decide_False by apply not_elem_of_nil.
    by rewrite HA. }
  assert (touch f 2 [A] B = ([A; B], [CallFn B])) as T2.
  { unfold touch.
    rewrite decide_False by (rewrite list_elem_of_singleton; congruence).
    by rewrite HB. }
  assert (touch f 2 [A; B] A = ([B; A], [])) as T3.
  { unfold touch. rewrite decide_True by set_solver.
    rewrite (filter_cons_False (λ y, y ≠ A)) by (by intros Hne; apply Hne).
    by rewrite (filter_cons_True (λ y, y ≠ A)) by congruence. }
  assert (touch f 2 [B; A] C = ([A; C], [CallFn C; Evicted B])) as T4.
  { unfold touch.
    rewrite decide_False
      by (rewrite !elem_of_cons, elem_of_nil; intros [?|[?|[]]]; congruence).
    by rewrite HC. }
  split.
  - destruct (program_gets_touches f 2 [A; B; A]) as (s & t & Hp & _ & Ho & Ht);
      [done|].
    simpl in Ho, Ht. rewrite T1, T2, T3 in Ho, Ht. simpl in Ho, Ht.
    exists s, t. split; [|done].
    rewrite !fmap_cons in Hp. unfold seen in Hp. by rewrite HA, HB in Hp.
  - destruct (program_gets_touches f 2 [A; B; A; C])
      as (s & t & Hp & Hwf & Ho & Ht); [done|].
    simpl in Ho, Ht. rewrite T1, T2, T3, T4 in Ho, Ht. simpl in Ho, Ht.
    exists s, t. split; [|split; [done|split; [by subst t|split; [|done]]]].
    + rewrite !fmap_cons in Hp. unfold seen in Hp.
      by rewrite HA, HB, HC in Hp.
    + rewrite linked_cached_keys by apply Hwf. rewrite Ho. simpl.
      by rewrite (right_id_L ∅ (∪)).
Qed.

Lemma effect_replay f c s :
  wf f s →
  replay f (effect c s).2 (cached_keys s) = Some (cached_keys (effect c s).1).
Proof.
  intros [Hf Hc Hb Hl Hm]. destruct c as [k| | |k| | | | |]; try done.
  unfold effect, indexed, cached_keys.
  destruct (_key_to_value s !! k) as [[v it]|] eqn:Hk; [done|].
  assert (k ∉ dom (_key_to_value s)) as Hnot by (by apply not_elem_of_dom).
  rewrite <- Hf. destruct (_fn s k) as [v|e] eqn:Hfk; simpl.
  - rewrite decide_False by done. rewrite Hfk.
    unfold with_room, purged. case_bool_decide as Hfull; simpl.
    + destruct (StdList.nodes (_key_tracker s)) as [|[it0 k0] rest] eqn:Hns;
        simpl.
      * by rewrite dom_insert_L.
      * destruct (linked_front s it0 k0 rest Hl Hns) as [v0 Hk0].
        assert (k0 ∈ dom (_key_to_value s)) as Hin
          by (apply elem_of_dom; by eexists).
        rewrite decide_True by set_solver. f_equal.
        rewrite dom_insert_L, dom_delete_L.
        assert (k ≠ k0) as Hne by (intros ->; by apply Hnot).
        apply set_eq. intros x.
        rewrite !elem_of_union, !elem_of_difference, !elem_of_union,
          !elem_of_singleton.
        intuition congruence.
    + by rewrite dom_insert_L.
  - rewrite decide_False by done. by rewrite Hfk.
Qed.

(** C6.  In every state a client can reach, with the trace of the calls
    so far: the cached keys are the keys for which the function has been
    called and has returned and which have not been evicted since;
    [operator[]] on a cached key does not call the function, on another
    key it calls it once, on this key; and between two calls of the
    function on a key for which it returns, the key has been evicted. *)
Theorem one_computation_while_resident f n s t :
  reachable f n s t →
  replay f t ∅ = Some (cached_keys s)
  ∧ (∀ k, fn_calls (operator_index k s).2
          = if decide (k ∈ cached_keys s) then [] else [k])
  ∧ (∀ k v t1 t2 t3,
       f k = Returns v →
       t = t1 ++ CallFn k :: t2 ++ CallFn k :: t3 →
       Evicted k ∈ t2).
Proof.
  intros Hr.
  destruct (reachable_invariant f n
              (λ s t, replay f t ∅ = Some (cached_keys s)) s t)
    as [Hwf Hrep]; [done| |done|].
  { intros s0 t0 c Hwf0 Hrep0. rewrite replay_app, Hrep0. simpl.
    by apply effect_replay. }
  split; [done|]. split.
  - intros k. destruct Hwf as [Hf Hc Hb Hl Hm].
    rewrite operator_index_indexed by done. unfold indexed, cached_keys.
    destruct (_key_to_value s !! k) as [[v it]|] eqn:Hk.
    + rewrite decide_True; [done|]. apply elem_of_dom. by eexists.
    + rewrite decide_False by (by apply not_elem_of_dom).
      destruct (_fn s k); [|done]. simpl. by rewrite fn_calls_with_room.
  - intros k v t1 t2 t3 Hv Ht. by eapply replay_no_second_call.
Qed.

End properties.

Lemma get_returns_function_value_witness :
  ∃ s' t',
    operator_index 2 (Scenario.after [Index 2; Index 3]).1 = (Ret 4, s', t')
    ∧ (∃ it, _key_to_value s' !! 2 = Some (4, it))
    ∧ match _key_to_value (Scenario.after [Index 2; Index 3]).1 !! 2 with
      | None => fn_calls t' = [2]
      | Some (v0, _) => v0 = 4 ∧ fn_calls t' = []
      end.
Proof.
  apply (get_returns_function_value Scenario.square 2 _
           (Scenario.after [Index 2; Index 3]).2 2 4).
  - apply scenario_reachable.
  - reflexivity.
Defined.

Lemma failure_leaves_cache_unchanged_witness :
  let s : lru_cache_using_std nat nat bool :=
    Cache (λ k, if decide (k = 7) then Raises true else Returns k) 1
      StdList.new ∅ in
  operator_index 7 s = (Throw true, s, [CallFn 7])
  ∧ evictions [CallFn 7] = []
  ∧ run [Index 7; Index 7] s
    = (Ret [Caught true; Caught true], s, [CallFn 7; CallFn 7]).
Proof.
  intros s. apply (failure_leaves_cache_unchanged s 7 true); reflexivity.
Defined.

Lemma distinct_keys_leave_first_in_first_out_witness :
  ∃ s t,
    program Scenario.square 2 (Index <$> [1; 2; 3; 4; 5])
    = (Ret (seen Scenario.square <$> [1; 2; 3; 4; 5]), Some s, t)
    ∧ cached_keys s = list_to_set (drop (5 - 2) [1; 2; 3; 4; 5])
    ∧ access_order s = drop (5 - 2) [1; 2; 3; 4; 5]
    ∧ evictions t = take (5 - 2) [1; 2; 3; 4; 5]
    ∧ fn_calls t = [1; 2; 3; 4; 5].
Proof.
  apply (distinct_keys_leave_first_in_first_out Scenario.square 2
           [1; 2; 3; 4; 5]).
  - lia.
  - apply (bool_decide_unpack _). vm_compute. exact I.
  - simpl. lia.
  - intros k _. eexists. reflexivity.
Defined.

Lemma hit_promotes_before_eviction_witness :
  (∃ s t,
     program Scenario.square 2 [Index 2; Index 3; Index 2]
     = (Ret [Value 4; Value 9; Value 4], Some s, t)
     ∧ access_order s = [3; 2] ∧ t = [CallFn 2; CallFn 3])
  ∧ ∃ s t,
      program Scenario.square 2 Scenario.gets
      = (Ret [Value 4; Value 9; Value 4; Value 16], Some s, t)
      ∧ t = [CallFn 2; CallFn 3; CallFn 4; Evicted 3]
      ∧ evictions t = [3]
      ∧ cached_keys s = {[2; 4]}
      ∧ access_order s = [2; 4].
Proof.
  apply (hit_promotes_before_eviction Scenario.square 2 3 4 4 9 16);
    (lia || reflexivity).
Defined.

Lemma size_never_exceeds_capacity_witness :
  ∃ as1 s1 t1 as2 s2 t2 m,
    program Scenario.square 2 (take 3 Scenario.gets) = (Ret as1, Some s1, t1)
    ∧ run (drop 3 Scenario.gets) s1 = (Ret as2, s2, t2)
    ∧ program Scenario.square 2 Scenario.gets
      = (Ret (as1 ++ as2), Some s2, t1 ++ t2)
    ∧ size_ s1 = (Ret m, s1, []) ∧ capacity s1 = (Ret 2, s1, [])
    ∧ m ≤ 2 ∧ length (StdList.nodes (_key_tracker s1)) = m.
Proof.
  apply (size_never_exceeds_capacity Scenario.square 2 Scenario.gets 3). lia.
Defined.

Lemma containers_stay_linked_witness :
  ∃ as_ s t,
    program Scenario.square 2 Scenario.gets = (Ret as_, Some s, t)
    ∧ cached_keys s = list_to_set (access_order s)
    ∧ NoDup (access_order s)
    ∧ NoDup (StdList.iterators (_key_tracker s))
    ∧ ∀ k v it,
        _key_to_value s !! k = Some (v, it) →
        StdList.at_node it (StdList.nodes (_key_tracker s)) = Some (it, k).
Proof.
  apply (containers_stay_linked Scenario.square 2 Scenario.gets). lia.
Defined.

Lemma one_computation_while_resident_witness :
  let s := (Scenario.after Scenario.gets).1 in
  let t := (Scenario.after Scenario.gets).2 in
  replay Scenario.square t ∅ = Some (cached_keys s)
  ∧ (∀ k, fn_calls (operator_index k s).2
          = if decide (k ∈ cached_keys s) then [] else [k])
  ∧ (∀ k v t1 t2 t3,
       Scenario.square k = Returns v →
       t = t1 ++ CallFn k :: t2 ++ CallFn k :: t3 →
       Evicted k ∈ t2).
Proof.
  intros s t.
  apply (one_computation_while_resident Scenario.square 2 s t).
  apply scenario_reachable.
Defined.

Lemma front_is_least_recently_used_witness :
  let s := (Scenario.after Scenario.gets).1 in
  ∃ r,
    front s = (Ret r, s, [])
    ∧ match access_order s with
      | [] => empty s = (Ret true, s, []) ∧ r = map_end
      | k :: _ =>
          empty s = (Ret false, s, [])
          ∧ r = Some k ∧ is_Some (map_deref r (_key_to_value s))
      end.
Proof.
  intros s.
  apply (front_is_least_recently_used Scenario.square 2 s
           (Scenario.after Scenario.gets).2).
  apply scenario_reachable.
Defined.

Lemma hit_only_promotes_witness :
  let s := (Scenario.after [Index 2; Index 3]).1 in
  ∃ s',
    operator_index 2 s = (Ret 4, s', [])
    ∧ _key_to_value s' = _key_to_value s
    ∧ _fn s' = _fn s ∧ _capacity s' = _capacity s
    ∧ (size_ s').1.1 = (size_ s).1.1
    ∧ cached_keys s' = cached_keys s
    ∧ StdList.nodes (_key_tracker s')
      = StdList.without 0 (StdList.nodes (_key_tracker s)) ++ [(0, 2)]
    ∧ access_order s' = filter (λ y, y ≠ 2) (access_order s) ++ [2]
    ∧ filter (λ y, y ≠ 2) (access_order s')
      = filter (λ y, y ≠ 2) (access_order s).
Proof.
  intros s.
  apply (hit_only_promotes Scenario.square 2 s
           (Scenario.after [Index 2; Index 3]).2 2 4 0).
  - apply scenario_reachable.
  - vm_compute. reflexivity.
Defined.

(** ** More properties: the observers *)

Section observers.
Context {K V E : Type} `{Countable K}.
Implicit Types (s : lru_cache_using_std K V E) (k : K) (v : V) (e : E).
Implicit Types (it : StdList.node) (f : K → fn_result V E).
Implicit Types (t : list (event (K := K))) (l ks : list K).
Implicit Types (c : call (K := K)).

Lemma reachable_capacity f n s t : reachable f n s t → _capacity s = n.
Proof.
  intros Hr.
  destruct (reachable_invariant f n (λ s _, _capacity s = n) s t eq_refl)
    as [_ Hc]; [|done..].
  intros s0 t0 c _ Hc. by rewrite effect_capacity.
Qed.

(** X1.  In every state a client can reach, [get_keys] changes nothing and
    writes the access order backwards, most recently used key first: every
    cached key once and nothing else, [size()] keys in all. *)
Theorem get_keys_lists_cached_keys f n s t :
  reachable f n s t →
  ∃ ks,
    get_keys s = (Ret ks, s, [])
    ∧ ks = reverse (access_order s)
    ∧ NoDup ks
    ∧ list_to_set ks = cached_keys s
    ∧ size_ s = (Ret (length ks), s, []).
Proof.
  intros Hr. apply reachable_wf in Hr as [Hf Hc Hb Hl Hm].
  eexists. split; [done|]. split; [done|]. split; [|split].
  - rewrite reverse_Permutation. apply Hl.
  - rewrite linked_cached_keys by done. apply set_eq. intros k.
    by rewrite !elem_of_list_to_set, elem_of_reverse.
  - unfold size_, bind, this, ret. simpl.
    fold (access_order s). by rewrite length_reverse, access_order_length.
Qed.

(** X2.  In every state a client can reach, [find(k)] changes nothing, in
    particular not the access order; it returns the position of [k] when
    [k] is cached and [end()] otherwise, and it returns [end()] exactly when
    [operator[]] on [k] calls the function. *)
Theorem find_tells_hit_from_miss f n s t k :
  reachable f n s t →
  ∃ r,
    find k s = (Ret r, s, [])
    ∧ r = (if decide (k ∈ cached_keys s) then Some k else map_end)
    ∧ fn_calls (operator_index k s).2 = (if r is Some _ then [] else [k]).
Proof.
  intros Hr. apply reachable_wf in Hr as [Hf Hc Hb Hl Hm].
  exists (map_find k (_key_to_value s)). split; [done|].
  rewrite operator_index_indexed by done.
  unfold map_find, indexed, cached_keys.
  destruct (_key_to_value s !! k) as [[v it]|] eqn:Hk.
  - rewrite decide_True; [done|]. apply elem_of_dom. by eexists.
  - rewrite decide_False by (by apply not_elem_of_dom). split; [done|].
    destruct (_fn s k); [|done]. simpl. by rewrite fn_calls_with_room.
Qed.

(** X5.  In every state a client can reach, [empty()] returns [true]
    exactly when [size()] is 0, and exactly when there is no key in the
    access order; an empty cache is not full. *)
Theorem empty_means_no_entries f n s t :
  reachable f n s t →
  ∃ b,
    empty s = (Ret b, s, [])
    ∧ (b = true ↔ size_ s = (Ret 0, s, []))
    ∧ (b = true ↔ access_order s = [])
    ∧ (b = true → full s = (Ret false, s, [])).
Proof.
  intros Hr. apply reachable_wf in Hr as [Hf Hc Hb Hl Hm].
  eexists. split; [done|].
  pose proof (access_order_length s Hl) as Hlen.
  pose proof (map_size_empty_iff (_key_to_value s)) as He.
  unfold size_, full, bind, this, ret. simpl.
  rewrite bool_decide_eq_true. split; [|split].
  - rewrite <- He. split; [by intros ->|]. by intros [= ->].
  - rewrite <- He, <- Hlen. split.
    + by intros ?%nil_length_inv.
    + by intros ->.
  - intros Hm0. rewrite Hm0, map_size_empty.
    rewrite bool_decide_eq_false_2; [done|].
    congruence.
Qed.

End observers.

(** ** More properties: misses and evictions *)

Section misses.
Context {K V E : Type} `{Countable K}.
Implicit Types (s : lru_cache_using_std K V E) (k : K) (v : V) (e : E).
Implicit Types (it : StdList.node) (f : K → fn_result V E).
Implicit Types (t : list (event (K := K))) (l ks : list K).
Implicit Types (c : call (K := K)).

Lemma full_true s :
  full s = (Ret true, s, []) ↔ size (_key_to_value s) = _capacity s.
Proof.
  unfold full, bind, this, ret. simpl. split.
  - intros [= Hb]. by apply bool_decide_eq_true in Hb.
  - intros Hs. by rewrite bool_decide_eq_true_2.
Qed.

Lemma full_false s :
  full s = (Ret false, s, []) ↔ size (_key_to_value s) ≠ _capacity s.
Proof.
  unfold full, bind, this, ret. simpl. split.
  - intros [= Hb]. by apply bool_decide_eq_false in Hb.
  - intros Hs. by rewrite bool_decide_eq_false_2.
Qed.

Lemma with_room_full s it0 k0 rest :
  size (_key_to_value s) = _capacity s →
  StdList.nodes (_key_tracker s) = (it0, k0) :: rest →
  with_room s
  = (with_containers s rest (delete k0 (_key_to_value s)), [Evicted k0]).
Proof.
  intros Hs Hns. unfold with_room, purged.
  by rewrite bool_decide_eq_true_2, Hns.
Qed.

Lemma with_room_not_full s :
  size (_key_to_value s) ≠ _capacity s → with_room s = (s, []).
Proof. intros Hs. unfold with_room. by rewrite bool_decide_eq_false_2. Qed.

Lemma full_nodes s :
  linked s → _capacity s ≠ 0 → size (_key_to_value s) = _capacity s →
  ∃ it0 k0 rest v0,
    StdList.nodes (_key_tracker s) = (it0, k0) :: rest
    ∧ _key_to_value s !! k0 = Some (v0, it0).
Proof.
  intros Hl Hc Hs.
  destruct (StdList.nodes (_key_tracker s)) as [|[it0 k0] rest] eqn:Hns.
  - rewrite linked_size, Hns in Hs by done. simpl in Hs. congruence.
  - destruct (linked_front s it0 k0 rest Hl Hns) as [v0 Hk0].
    by exists it0, k0, rest, v0.
Qed.

(** X3.  In every state a client can reach in which the cache is full,
    [operator[]] on a key that is not cached and on which the function
    returns calls the function and then evicts one key, the one [front()]
    shows, and no other: that key is gone, the new key is the most recently
    used one, and the cache is full again. *)
Theorem miss_on_full_cache_evicts_front f n s t k v :
  reachable f n s t → full s = (Ret true, s, []) →
  k ∉ cached_keys s → f k = Returns v →
  ∃ k0 s',
    front s = (Ret (Some k0), s, [])
    ∧ operator_index k s = (Ret v, s', [CallFn k; Evicted k0])
    ∧ cached_keys s' = {[k]} ∪ (cached_keys s ∖ {[k0]})
    ∧ (k0 ∉ cached_keys s')
    ∧ access_order s' = tail (access_order s) ++ [k]
    ∧ full s' = (Ret true, s', []).
Proof.
  intros Hr Hfull Hk Hv. apply reachable_wf in Hr as [Hf Hc Hb Hl Hm].
  apply full_true in Hfull. unfold cached_keys in Hk.
  apply not_elem_of_dom in Hk.
  destruct (full_nodes s Hl Hc Hfull) as (it0 & k0 & rest & v0 & Hns & Hk0).
  assert (k ≠ k0) as Hne by congruence.
  exists k0. eexists. split; [|split].
  - rewrite front_eval by done. unfold StdList.front. by rewrite Hns.
  - rewrite (operator_index_miss s k v) by (done || congruence).
    by rewrite (with_room_full s it0 k0 rest).
  - unfold cached_keys, access_order, StdList.values. simpl.
    rewrite dom_insert_L, dom_delete_L, Hns. split; [done|]. split; [|split].
    + rewrite elem_of_union, elem_of_difference, !elem_of_singleton.
      intros [?|[_ ?]]; congruence.
    + by rewrite fmap_app.
    + apply full_true. simpl. rewrite map_size_insert_None.
      * rewrite map_size_delete, Hk0. simpl.
        rewrite <- Hfull. rewrite linked_size, Hns by done. done.
      * by rewrite lookup_delete_ne.
Qed.

(** X4.  In every state a client can reach in which the cache is not full,
    [operator[]] on a key that is not cached and on which the function
    returns calls the function and evicts nothing: the key is added behind
    the others, and [size()] grows by one. *)
Theorem miss_below_capacity_evicts_nothing f n s t k v :
  reachable f n s t → full s = (Ret false, s, []) →
  k ∉ cached_keys s → f k = Returns v →
  ∃ s',
    operator_index k s = (Ret v, s', [CallFn k])
    ∧ cached_keys s' = {[k]} ∪ cached_keys s
    ∧ access_order s' = access_order s ++ [k]
    ∧ size_ s' = (Ret (S (size (_key_to_value s))), s', []).
Proof.
  intros Hr Hfull Hk Hv. apply reachable_wf in Hr as [Hf Hc Hb Hl Hm].
  apply full_false in Hfull. unfold cached_keys in Hk.
  apply not_elem_of_dom in Hk.
  eexists. split.
  - rewrite (operator_index_miss s k v) by (done || congruence).
    by rewrite with_room_not_full.
  - unfold cached_keys, access_order, StdList.values, size_, bind, this, ret.
    simpl. rewrite dom_insert_L, fmap_app, map_size_insert_None by done.
    done.
Qed.

End misses.

(** ** More properties: what one call can do *)

Section steps.
Context {K V E : Type} `{Countable K}.
Implicit Types (s : lru_cache_using_std K V E) (k : K) (v : V) (e : E).
Implicit Types (it : StdList.node) (f : K → fn_result V E).
Implicit Types (t : list (event (K := K))) (l ks : list K).
Implicit Types (c : call (K := K)) (a : answer K V E).

(** The five ways a call can go. *)
Lemma call_cases f s c a s' t' :
  wf f s → try_catch (invoke c) s = (Ret a, s', t') →
  (is_index c = false ∧ s' = s ∧ t' = [])
  ∨ (∃ k v it,
       c = Index k ∧ _key_to_value s !! k = Some (v, it)
       ∧ s' = promoted it k s ∧ t' = [])
  ∨ (∃ k e,
       c = Index k ∧ _key_to_value s !! k = None ∧ f k = Raises e
       ∧ s' = s ∧ t' = [CallFn k])
  ∨ (∃ k v,
       c = Index k ∧ _key_to_value s !! k = None ∧ f k = Returns v
       ∧ size (_key_to_value s) ≠ _capacity s
       ∧ s' = recorded k v s ∧ t' = [CallFn k])
  ∨ (∃ k v it0 k0 rest v0,
       c = Index k ∧ _key_to_value s !! k = None ∧ f k = Returns v
       ∧ size (_key_to_value s) = _capacity s
       ∧ StdList.nodes (_key_tracker s) = (it0, k0) :: rest
       ∧ _key_to_value s !! k0 = Some (v0, it0)
       ∧ s' = recorded k v
                (with_containers s rest (delete k0 (_key_to_value s)))
       ∧ t' = [CallFn k; Evicted k0]).
Proof.
  intros Hwf Hc. destruct (try_invoke_effect f s c Hwf) as [a0 Ha].
  rewrite Ha in Hc. injection Hc as _ <- <-. clear Ha a0.
  destruct Hwf as [Hf Hcap Hb Hl Hm].
  destruct c as [k| | |k| | | | |]; try (by left).
  right. unfold effect, indexed.
  destruct (_key_to_value s !! k) as [[v it]|] eqn:Hk.
  { left. by exists k, v, it. }
  right. rewrite Hf. destruct (f k) as [v|e] eqn:Hv.
  2: { left. by exists k, e. }
  right. destruct (decide (size (_key_to_value s) = _capacity s)) as [Hs|Hs].
  - right. destruct (full_nodes s Hl Hcap Hs) as (it0 & k0 & rest & v0 & Hns & Hk0).
    exists k, v, it0, k0, rest, v0.
    by rewrite (with_room_full s it0 k0 rest).
  - left. exists k, v. by rewrite with_room_not_full.
Qed.

(** X7.  In every state a client can reach, no call makes the cache
    smaller, and a call on a full cache leaves it full: entries leave only
    to make room for a new one. *)
Theorem no_call_shrinks_the_cache f n s t c a s' t' :
  reachable f n s t → try_catch (invoke c) s = (Ret a, s', t') →
  size (_key_to_value s) ≤ size (_key_to_value s')
  ∧ (full s = (Ret true, s, []) → full s' = (Ret true, s', [])).
Proof.
  intros Hr Hc. apply reachable_wf in Hr as Hwf. rewrite !full_true.
  destruct (call_cases f s c a s' t' Hwf Hc)
    as [(_ & -> & _)|[(k & v & it & _ & _ & -> & _)
       |[(k & e & _ & _ & _ & -> & _)
       |[(k & v & _ & Hk & _ & Hs & -> & _)
       |(k & v & it0 & k0 & rest & v0 & _ & Hk & _ & Hs & Hns & Hk0 & -> & _)]]]];
    simpl; try done.
  - rewrite map_size_insert_None by done. split; [lia|done].
  - assert (k ≠ k0) as Hne by congruence.
    rewrite map_size_insert_None by (by rewrite lookup_delete_ne).
    rewrite map_size_delete, Hk0. simpl.
    destruct Hwf as [_ Hcap _ _ _]. split; lia.
Qed.

(** X13.  In every state a client can reach, a call evicts at most one
    key, and it evicts one only when it is [operator[]] on a key that is
    not cached, the cache is full, and the key is the one [front()]
    shows. *)
Theorem eviction_only_to_make_room f n s t c a s' t' :
  reachable f n s t → try_catch (invoke c) s = (Ret a, s', t') →
  evictions t' = []
  ∨ ∃ k k0,
      c = Index k ∧ (k ∉ cached_keys s)
      ∧ full s = (Ret true, s, [])
      ∧ front s = (Ret (Some k0), s, [])
      ∧ evictions t' = [k0].
Proof.
  intros Hr Hc. apply reachable_wf in Hr as Hwf.
  destruct (call_cases f s c a s' t' Hwf Hc)
    as [(_ & _ & ->)|[(k & v & it & _ & _ & _ & ->)
       |[(k & e & _ & _ & _ & _ & ->)
       |[(k & v & _ & _ & _ & _ & _ & ->)
       |(k & v & it0 & k0 & rest & v0 & -> & Hk & _ & Hs & Hns & Hk0 & _ & ->)]]]];
    try (by left).
  right. exists k, k0. split; [done|]. split; [by apply not_elem_of_dom|].
  split; [by apply full_true|]. split; [|done].
  rewrite front_eval by apply Hwf. unfold StdList.front. by rewrite Hns.
Qed.

(** X11.  In every state a client can reach, a call leaves each cached key
    cached, with the value and the list iterator it had, unless it evicts
    this key, and then the key is not cached after the call. *)
Theorem entry_is_kept_until_evicted f n s t c a s' t' k v it :
  reachable f n s t → try_catch (invoke c) s = (Ret a, s', t') →
  _key_to_value s !! k = Some (v, it) →
  (_key_to_value s' !! k = Some (v, it) ∧ Evicted k ∉ t')
  ∨ (_key_to_value s' !! k = None ∧ Evicted k ∈ t').
Proof.
  intros Hr Hc Hk. apply reachable_wf in Hr as Hwf.
  destruct (call_cases f s c a s' t' Hwf Hc)
    as [(_ & -> & ->)|[(k1 & v1 & it1 & _ & _ & -> & ->)
       |[(k1 & e & _ & _ & _ & -> & ->)
       |[(k1 & v1 & _ & Hk1 & _ & _ & -> & ->)
       |(k1 & v1 & it0 & k0 & rest & v0 & _ & Hk1 & _ & _ & _ & Hk0 & -> & ->)]]]];
    simpl.
  - left. split; [done|]. apply not_elem_of_nil.
  - left. split; [done|]. apply not_elem_of_nil.
  - left. split; [done|]. by intros [=]%list_elem_of_singleton.
  - left. split.
    + rewrite lookup_insert_ne; [done|congruence].
    + by intros [=]%list_elem_of_singleton.
  - assert (k1 ≠ k) as Hne by congruence.
    rewrite lookup_insert_ne by done.
    destruct (decide (k0 = k)) as [->|Hne0].
    + right. rewrite lookup_delete_eq. split; [done|].
      apply elem_of_cons. right. by apply list_elem_of_singleton.
    + left. rewrite lookup_delete_ne by done. split; [done|].
      rewrite !elem_of_cons, elem_of_nil. intros [?|[?|[]]]; congruence.
Qed.

Lemma replay_called f t : ∀ (r r' : gset K) k,
  replay f t r = Some r' → k ∈ r' →
  k ∈ r ∨ (CallFn k ∈ t ∧ ∃ v, f k = Returns v).
Proof.
  induction t as [|[k1|k1] t IH]; intros r r' k Hrep Hin; simpl in Hrep.
  - injection Hrep as <-. by left.
  - case_decide; [done|].
    destruct (IH _ _ k Hrep Hin) as [Hk|[Hk Hv]].
    + destruct (f k1) as [v1|e1] eqn:Hv1; [|by left].
      apply elem_of_union in Hk as [Hk|Hk]; [|by left].
      apply elem_of_singleton in Hk as ->. right. split; [by left|by eexists].
    + right. split; [by right|done].
  - case_decide; [|done].
    destruct (IH _ _ k Hrep Hin) as [Hk|[Hk Hv]].
    + left. by apply elem_of_difference in Hk as [Hk _].
    + right. split; [by right|done].
Qed.

(** X12.  In every state a client can reach, each cached key is one the
    client has asked for, and the function has been called for it and
    returns for it: the cache holds no key of its own making and none on
    which the function throws. *)
Theorem cached_keys_were_computed f n s t k :
  reachable f n s t → k ∈ cached_keys s →
  CallFn k ∈ t ∧ ∃ v, f k = Returns v.
Proof.
  intros Hr Hk.
  destruct (reachable_invariant f n
              (λ s t, replay f t ∅ = Some (cached_keys s)) s t)
    as [_ Hrep]; [done| |done|].
  { intros s0 t0 c Hwf0 Hrep0. rewrite replay_app, Hrep0. simpl.
    by apply effect_replay. }
  destruct (replay_called f t ∅ _ k Hrep Hk) as [Hin|Hc]; [|done].
  by apply not_elem_of_empty in Hin.
Qed.

End steps.

(** ** More properties: how calls compose *)

Section composition.
Context {K V E : Type} `{Countable K}.
Implicit Types (s : lru_cache_using_std K V E) (k : K) (v : V) (e : E).
Implicit Types (it : StdList.node) (f : K → fn_result V E).
Implicit Types (t : list (event (K := K))) (l ks : list K).
Implicit Types (c : call (K := K)) (a : answer K V E).

Lemma run_without_observers f cs : ∀ s,
  wf f s →
  ∃ as1 as2 s' t,
    run cs s = (Ret as1, s', t)
    ∧ run (filter (λ c, is_index c = true) cs) s = (Ret as2, s', t).
Proof.
  induction cs as [|c cs IH]; intros s Hwf.
  - by exists [], [], s, [].
  - destruct (try_invoke_effect f s c Hwf) as [a Ha].
    destruct (IH _ (wf_effect f s c Hwf)) as (as1 & as2 & s' & t & Hr1 & Hr2).
    destruct (decide (is_index c = true)) as [Hc|Hc].
    + rewrite filter_cons_True by done.
      exists (a :: as1), (a :: as2), s', ((effect c s).2 ++ t).
      rewrite !run_cons. unfold bind at 1 3. rewrite Ha.
      unfold bind. rewrite Hr1, Hr2. simpl. by rewrite !app_nil_r.
    + rewrite filter_cons_False by done.
      assert (effect c s = (s, [])) as He by (by destruct c).
      rewrite He in Ha, Hr1, Hr2. simpl in Ha, Hr1, Hr2.
      exists (a :: as1), as2, s', t. split; [|done].
      rewrite run_cons. unfold bind at 1. rewrite Ha.
      unfold bind. rewrite Hr1. simpl. by rewrite app_nil_r.
Qed.

(** X6.  The calls other than [operator[]] leave no mark: a program and the
    program without them end in the same state, with the same calls of the
    function and the same evictions. *)
Theorem observers_leave_no_mark f n cs :
  0 < n →
  ∃ as1 as2 s t,
    program f n cs = (Ret as1, Some s, t)
    ∧ program f n (filter (λ c, is_index c = true) cs) = (Ret as2, Some s, t).
Proof.
  intros Hn. unfold program.
  assert (constructor f n = Ret (Cache f n StdList.new ∅)) as Hc
    by (apply constructor_Ret; split; [lia|done]).
  rewrite Hc. pose proof (wf_constructor f n _ Hc) as Hwf.
  destruct (run_without_observers f cs _ Hwf) as (as1 & as2 & s & t & Hr1 & Hr2).
  exists as1, as2, s, t. by rewrite Hr1, Hr2.
Qed.

Lemma promoted_last s it k ns0 :
  StdList.nodes (_key_tracker s) = ns0 ++ [(it, k)] → it ∉ ns0.*1 →
  promoted it k s = s.
Proof.
  intros Hns Hit. unfold promoted, with_containers. rewrite Hns.
  unfold StdList.without. rewrite filter_app.
  fold (StdList.without it ns0). rewrite without_absent by done.
  rewrite (filter_cons_False (λ n, n.1 ≠ it)) by (by intros Hne; apply Hne).
  rewrite filter_nil, app_nil_r, <- Hns.
  by destruct s as [g c [ns fr] m].
Qed.

(** X10.  In every state a client can reach, when [operator[]] on [k] has
    returned, [operator[]] on [k] again returns the same value and changes
    nothing: no call of the function, no eviction, the same state. *)
Theorem second_get_changes_nothing f n s t k v s' t' :
  reachable f n s t → operator_index k s = (Ret v, s', t') →
  operator_index k s' = (Ret v, s', []).
Proof.
  intros Hr Hop. apply reachable_wf in Hr as Hwf.
  pose proof (wf_indexed f s k Hwf) as Hwf'.
  destruct Hwf as [Hf Hc Hb Hl Hm].
  rewrite operator_index_indexed in Hop by done.
  rewrite Hop in Hwf'. simpl in Hwf'. unfold indexed in Hop.
  destruct (_key_to_value s !! k) as [[v0 it]|] eqn:Hk.
  - injection Hop as <- <- <-.
    rewrite (operator_index_hit _ k v0 it); [|apply Hwf'|done].
    f_equal. f_equal. eapply promoted_last; [done|].
    unfold StdList.without. intros Hin.
    apply list_elem_of_fmap in Hin as ([it1 k1] & -> & Hin).
    by apply list_elem_of_filter in Hin as [Hne _].
  - destruct (_fn s k) as [v0|e0]; [|done]. injection Hop as <- <- <-.
    pose proof (linked_with_room s Hl) as Hl1.
    destruct (with_room s) as [s1 t1]. simpl in *.
    assert (_key_to_value (recorded k v0 s1) !! k
            = Some (v0, StdList.fresh (_key_tracker s1))) as Hk'
      by apply lookup_insert_eq.
    rewrite (operator_index_hit _ k v0 _ (wf_linked _ _ Hwf') Hk').
    f_equal. f_equal. eapply promoted_last; [done|].
    intros Hin. apply list_elem_of_fmap in Hin as ([it1 k1] & Heq & Hin).
    apply (linked_fresh _ Hl1) in Hin. simpl in Heq. lia.
Qed.

End composition.

(** ** More properties: the order of the keys *)

Section order.
Context {K V E : Type} `{Countable K}.
Implicit Types (s : lru_cache_using_std K V E) (k : K) (v : V) (e : E).
Implicit Types (f : K → fn_result V E).
Implicit Types (t : list (event (K := K))) (l r pre ks : list K).

Lemma length_filter_ne l k :
  NoDup l → k ∈ l → S (length (filter (λ y, y ≠ k) l)) = length l.
Proof.
  induction l as [|x l IH]; intros Hnd Hin.
  - by apply elem_of_nil in Hin.
  - apply NoDup_cons in Hnd as [Hx Hnd].
    apply elem_of_cons in Hin as [->|Hin].
    + rewrite (filter_cons_False (λ y, y ≠ x)) by (by intros Hne; apply Hne).
      by rewrite filter_ne_absent.
    + rewrite (filter_cons_True (λ y, y ≠ k)) by (by intros ->).
      simpl. by rewrite IH.
Qed.

Lemma touch_reverse f n l k v :
  NoDup l → length l ≤ n → n ≠ 0 → f k = Returns v →
  reverse (touch f n l k).1
  = k :: take (n - 1) (filter (λ y, y ≠ k) (reverse l)).
Proof.
  intros Hnd Hlen Hn Hv. unfold touch. rewrite filter_reverse.
  destruct (decide (k ∈ l)) as [Hin|Hin]; simpl.
  - rewrite reverse_snoc. f_equal. rewrite take_ge; [done|].
    rewrite length_reverse. pose proof (length_filter_ne l k Hnd Hin). lia.
  - rewrite Hv, filter_ne_absent by done.
    destruct (decide (length l = n)) as [Hfull|Hfull]; simpl.
    + rewrite reverse_snoc. f_equal. rewrite take_reverse.
      replace (length l - (n - 1)) with 1 by lia. by destruct l.
    + rewrite reverse_snoc. f_equal. rewrite take_ge; [done|].
      rewrite length_reverse. lia.
Qed.

(** X8.  In every state a client can reach, [operator[]] on a key on which
    the function returns moves this key to the front of what [get_keys]
    writes, keeps the other keys in their order, and drops the last one
    when there are more than [capacity()] keys. *)
Theorem get_moves_key_to_front_of_get_keys f n s t k v :
  reachable f n s t → f k = Returns v →
  ∃ s' t' ks,
    operator_index k s = (Ret v, s', t')
    ∧ get_keys s = (Ret ks, s, [])
    ∧ get_keys s'
      = (Ret (k :: take (n - 1) (filter (λ y, y ≠ k) ks)), s', []).
Proof.
  intros Hr Hv. pose proof (reachable_capacity f n s t Hr) as Hn.
  apply reachable_wf in Hr as Hwf.
  pose proof (indexed_touch f s k Hwf) as [Ho _].
  pose proof (indexed_outcome f s k Hwf) as Hout. rewrite Hv in Hout.
  destruct Hwf as [Hf Hc Hb Hl Hm].
  rewrite operator_index_indexed by done.
  destruct (indexed k s) as [[o s'] t']. simpl in *. subst o.
  exists s', t', (reverse (access_order s)). split; [done|]. split; [done|].
  unfold get_keys, bind, this, ret. simpl. fold (access_order s').
  rewrite Ho, Hn. rewrite (touch_reverse f n _ k v); [done|apply Hl| |lia|done].
  rewrite access_order_length by done. lia.
Qed.

Lemma elem_of_accessed r k x : x ∈ accessed r k ↔ x ∈ r ∨ x = k.
Proof.
  unfold accessed.
  rewrite elem_of_app, list_elem_of_filter, list_elem_of_singleton.
  destruct (decide (x = k)); intuition congruence.
Qed.

Lemma NoDup_accessed r k : NoDup r → NoDup (accessed r k).
Proof.
  intros Hnd. unfold accessed. apply NoDup_app. split; [|split].
  - by apply NoDup_filter.
  - intros x [Hne _]%list_elem_of_filter Hin.
    by apply list_elem_of_singleton in Hin.
  - apply NoDup_singleton.
Qed.

(** One access keeps the access order of the cache a suffix of the keys by
    last access: the whole of it, or its last [n] keys. *)
Lemma touch_accessed f n l r pre k v :
  n ≠ 0 → NoDup r → r = pre ++ l → pre = [] ∨ length l = n →
  length l ≤ n → f k = Returns v →
  length (touch f n l k).1 ≤ n
  ∧ ∃ pre', accessed r k = pre' ++ (touch f n l k).1
            ∧ (pre' = [] ∨ length (touch f n l k).1 = n).
Proof.
  intros Hn Hnd -> Hpre Hlen Hv. unfold touch, accessed.
  apply NoDup_app in Hnd as (Hnd1 & Hdisj & Hnd2).
  rewrite filter_app.
  destruct (decide (k ∈ l)) as [Hin|Hin]; simpl.
  - pose proof (length_filter_ne l k Hnd2 Hin) as Hlf.
    rewrite length_app. simpl. split; [lia|].
    exists pre. split.
    + rewrite filter_ne_absent, app_assoc; [done|].
      intros Hk. by apply (Hdisj k).
    + destruct Hpre as [->|Hfull]; [by left|right; lia].
  - rewrite Hv, (filter_ne_absent l) by done.
    destruct (decide (length l = n)) as [Hfull|Hfull]; simpl.
    + destruct l as [|x l]; [simpl in *; lia|]. simpl in *.
      rewrite length_app. simpl. split; [lia|].
      exists (filter (λ y, y ≠ k) pre ++ [x]). split; [|right; lia].
      by rewrite <- !app_assoc.
    + destruct Hpre as [->|?]; [|done].
      rewrite length_app. simpl. split; [lia|].
      exists []. split; [done|by left].
Qed.

Lemma touches_recency f n ks : ∀ l r pre,
  n ≠ 0 → NoDup r → r = pre ++ l → pre = [] ∨ length l = n →
  length l ≤ n → (∀ k, k ∈ ks → ∃ v, f k = Returns v) →
  (touches f n l ks).1
  = drop (length (foldl accessed r ks) - n) (foldl accessed r ks).
Proof.
  induction ks as [|k ks IH]; intros l r pre Hn Hnd Hr Hpre Hlen Hf.
  - simpl. subst r. destruct Hpre as [->|Hfull].
    + simpl. replace (length l - n) with 0 by lia. done.
    + rewrite length_app, Hfull.
      replace (length pre + n - n) with (length pre) by lia.
      by rewrite drop_app_length.
  - destruct (Hf k) as [v Hv]; [by left|].
    destruct (touch_accessed f n l r pre k v Hn Hnd Hr Hpre Hlen Hv)
      as (Hlen' & pre' & Hr' & Hpre').
    simpl. destruct (touch f n l k) as [l1 t1]. simpl in *.
    rewrite <- (IH l1 (accessed r k) pre'); try done.
    + by destruct (touches f n l1 ks).
    + by apply NoDup_accessed.
    + intros k' Hk'. apply Hf. by right.
Qed.

Lemma elem_of_foldl_accessed ks : ∀ r x,
  x ∈ foldl accessed r ks ↔ x ∈ r ∨ x ∈ ks.
Proof.
  induction ks as [|k ks IH]; intros r x; simpl.
  - rewrite elem_of_nil. tauto.
  - rewrite IH, elem_of_accessed, elem_of_cons. tauto.
Qed.

Lemma NoDup_foldl_accessed ks : ∀ r, NoDup r → NoDup (foldl accessed r ks).
Proof.
  induction ks as [|k ks IH]; intros r Hnd; [done|].
  simpl. by apply IH, NoDup_accessed.
Qed.

(** X9.  In a cache of capacity [n > 0], after [operator[]] on the keys
    [ks], on which the function returns, the access order is the last [n]
    of the keys of [ks] taken once each and ordered by their last
    occurrence (all of them when they are at most [n]): the cache holds the
    [n] most recently used keys. *)
Theorem cache_holds_most_recent_keys f n ks :
  0 < n → (∀ k, k ∈ ks → ∃ v, f k = Returns v) →
  ∃ s t,
    program f n (Index <$> ks) = (Ret (seen f <$> ks), Some s, t)
    ∧ access_order s = drop (length (recency ks) - n) (recency ks)
    ∧ cached_keys s
      = list_to_set (drop (length (recency ks) - n) (recency ks))
    ∧ NoDup (recency ks)
    ∧ (∀ k, k ∈ recency ks ↔ k ∈ ks).
Proof.
  intros Hn Hf.
  destruct (program_gets_touches f n ks) as (s & t & Hp & Hwf & Ho & _);
    [lia|].
  exists s, t. split; [done|].
  assert (access_order s = drop (length (recency ks) - n) (recency ks)) as Hd.
  { rewrite Ho. apply (touches_recency f n ks [] [] []); try done.
    - lia.
    - apply NoDup_nil_2.
    - by left.
    - simpl. lia. }
  split; [done|]. split; [|split].
  - rewrite linked_cached_keys by apply Hwf. by rewrite Hd.
  - apply NoDup_foldl_accessed, NoDup_nil_2.
  - intros k. unfold recency. rewrite elem_of_foldl_accessed, elem_of_nil.
    tauto.
Qed.

End order.

(** ** More properties: the account of a run *)

Section account.
Context {K V E : Type} `{Countable K}.
Implicit Types (s : lru_cache_using_std K V E) (k : K) (v : V) (e : E).
Implicit Types (f : K → fn_result V E).
Implicit Types (t : list (event (K := K))) (r : gset K).

Lemma replay_account f t : ∀ r r',
  replay f t r = Some r' →
  size r + length (filter (λ k, returns f k = true) (fn_calls t))
  = size r' + length (evictions t).
Proof.
  induction t as [|[k|k] t IH]; intros r r' Hrep; simpl in Hrep.
  - injection Hrep as <-. simpl. lia.
  - case_decide as Hk; [done|]. apply IH in Hrep.
    change (fn_calls (CallFn k :: t)) with (k :: fn_calls t).
    change (evictions (CallFn k :: t)) with (evictions t).
    unfold returns at 1. destruct (f k) as [v|e] eqn:Hv.
    + rewrite (filter_cons_True (λ k, returns f k = true))
        by (unfold returns; by rewrite Hv).
      rewrite size_union, size_singleton in Hrep
        by (apply disjoint_singleton_l; exact Hk).
      simpl. lia.
    + rewrite (filter_cons_False (λ k, returns f k = true))
        by (unfold returns; by rewrite Hv).
      done.
  - case_decide as Hk; [|done]. apply IH in Hrep.
    change (fn_calls (Evicted k :: t)) with (fn_calls t).
    change (evictions (Evicted k :: t)) with (k :: evictions t).
    rewrite size_difference in Hrep by (by apply singleton_subseteq_l).
    rewrite size_singleton in Hrep.
    assert (size r ≠ 0) as Hpos.
    { intros Hz. apply size_empty_inv in Hz. apply (Hz k) in Hk.
      by apply elem_of_empty in Hk. }
    simpl. lia.
Qed.

(** X14.  In every state a client can reach, the calls of the function
    that returned are as many as the cached entries and the evictions
    together: each computed value is cached or has been evicted, and
    nothing is evicted twice. *)
Theorem computed_values_are_cached_or_evicted f n s t :
  reachable f n s t →
  length (filter (λ k, returns f k = true) (fn_calls t))
  = size (_key_to_value s) + length (evictions t).
Proof.
  intros Hr.
  destruct (reachable_invariant f n
              (λ s t, replay f t ∅ = Some (cached_keys s)) s t)
    as [_ Hrep]; [done| |done|].
  { intros s0 t0 c Hwf0 Hrep0. rewrite replay_app, Hrep0. simpl.
    by apply effect_replay. }
  apply replay_account in Hrep. rewrite size_empty in Hrep.
  unfold cached_keys in Hrep. rewrite size_dom in Hrep. lia.
Qed.

End account.

(** ** The further properties in the scenario *)

Lemma get_keys_lists_cached_keys_witness :
  let s := (Scenario.after Scenario.gets).1 in
  ∃ ks,
    get_keys s = (Ret ks, s, [])
    ∧ ks = reverse (access_order s)
    ∧ NoDup ks
    ∧ list_to_set ks = cached_keys s
    ∧ size_ s = (Ret (length ks), s, []).
Proof.
  intros s.
  apply (get_keys_lists_cached_keys Scenario.square 2 s
           (Scenario.after Scenario.gets).2).
  apply scenario_reachable.
Defined.

Lemma find_tells_hit_from_miss_witness :
  let s := (Scenario.after Scenario.gets).1 in
  ∃ r,
    find 3 s = (Ret r, s, [])
    ∧ r = (if decide (3 ∈ cached_keys s) then Some 3 else map_end)
    ∧ fn_calls (operator_index 3 s).2 = (if r is Some _ then [] else [3]).
Proof.
  intros s.
  apply (find_tells_hit_from_miss Scenario.square 2 s
           (Scenario.after Scenario.gets).2 3).
  apply scenario_reachable.
Defined.

Lemma empty_means_no_entries_witness :
  let s := (Scenario.after []).1 in
  ∃ b,
    empty s = (Ret b, s, [])
    ∧ (b = true ↔ size_ s = (Ret 0, s, []))
    ∧ (b = true ↔ access_order s = [])
    ∧ (b = true → full s = (Ret false, s, [])).
Proof.
  intros s.
  apply (empty_means_no_entries Scenario.square 2 s (Scenario.after []).2).
  apply scenario_reachable.
Defined.

Lemma miss_on_full_cache_evicts_front_witness :
  let s := (Scenario.after [Index 2; Index 3]).1 in
  ∃ k0 s',
    front s = (Ret (Some k0), s, [])
    ∧ operator_index 4 s = (Ret 16, s', [CallFn 4; Evicted k0])
    ∧ cached_keys s' = {[4]} ∪ (cached_keys s ∖ {[k0]})
    ∧ (k0 ∉ cached_keys s')
    ∧ access_order s' = tail (access_order s) ++ [4]
    ∧ full s' = (Ret true, s', []).
Proof.
  intros s.
  apply (miss_on_full_cache_evicts_front Scenario.square 2 s
           (Scenario.after [Index 2; Index 3]).2 4 16).
  - apply scenario_reachable.
  - vm_compute. reflexivity.
  - apply not_elem_of_dom. vm_compute. reflexivity.
  - reflexivity.
Defined.

Lemma miss_below_capacity_evicts_nothing_witness :
  let s := (Scenario.after [Index 2]).1 in
  ∃ s',
    operator_index 3 s = (Ret 9, s', [CallFn 3])
    ∧ cached_keys s' = {[3]} ∪ cached_keys s
    ∧ access_order s' = access_order s ++ [3]
    ∧ size_ s' = (Ret (S (size (_key_to_value s))), s', []).
Proof.
  intros s.
  apply (miss_below_capacity_evicts_nothing Scenario.square 2 s
           (Scenario.after [Index 2]).2 3 9).
  - apply scenario_reachable.
  - vm_compute. reflexivity.
  - apply not_elem_of_dom. vm_compute. reflexivity.
  - reflexivity.
Defined.

Lemma no_call_shrinks_the_cache_witness :
  let s := (Scenario.after [Index 2; Index 3]).1 in
  let r := try_catch (invoke (Index 4)) s in
  size (_key_to_value s) ≤ size (_key_to_value r.1.2)
  ∧ (full s = (Ret true, s, []) → full r.1.2 = (Ret true, r.1.2, [])).
Proof.
  intros s r.
  apply (no_call_shrinks_the_cache Scenario.square 2 s
           (Scenario.after [Index 2; Index 3]).2 (Index 4) (Value 16)
           r.1.2 r.2).
  - apply scenario_reachable.
  - vm_compute. reflexivity.
Defined.

Lemma eviction_only_to_make_room_witness :
  let s := (Scenario.after [Index 2; Index 3]).1 in
  let r := try_catch (invoke (Index 4)) s in
  evictions r.2 = []
  ∨ ∃ k k0,
      Index 4 = Index k ∧ (k ∉ cached_keys s)
      ∧ full s = (Ret true, s, [])
      ∧ front s = (Ret (Some k0), s, [])
      ∧ evictions r.2 = [k0].
Proof.
  intros s r.
  apply (eviction_only_to_make_room Scenario.square 2 s
           (Scenario.after [Index 2; Index 3]).2 (Index 4) (Value 16)
           r.1.2 r.2).
  - apply scenario_reachable.
  - vm_compute. reflexivity.
Defined.

Lemma entry_is_kept_until_evicted_witness :
  let s := (Scenario.after [Index 2; Index 3]).1 in
  let r := try_catch (invoke (Index 4)) s in
  (_key_to_value r.1.2 !! 3 = Some (9, 1) ∧ Evicted 3 ∉ r.2)
  ∨ (_key_to_value r.1.2 !! 3 = None ∧ Evicted 3 ∈ r.2).
Proof.
  intros s r.
  apply (entry_is_kept_until_evicted Scenario.square 2 s
           (Scenario.after [Index 2; Index 3]).2 (Index 4) (Value 16)
           r.1.2 r.2 3 9 1).
  - apply scenario_reachable.
  - vm_compute. reflexivity.
  - vm_compute. reflexivity.
Defined.

Lemma cached_keys_were_computed_witness :
  CallFn 4 ∈ (Scenario.after Scenario.gets).2
  ∧ ∃ v, Scenario.square 4 = Returns v.
Proof.
  apply (cached_keys_were_computed Scenario.square 2
           (Scenario.after Scenario.gets).1 (Scenario.after Scenario.gets).2 4).
  - apply scenario_reachable.
  - apply elem_of_dom. exists (16, 2). vm_compute. reflexivity.
Defined.

Lemma observers_leave_no_mark_witness :
  ∃ as1 as2 s t,
    program Scenario.square 2 [Index 2; Size; Index 3; Front; Index 2]
    = (Ret as1, Some s, t)
    ∧ program Scenario.square 2
        (filter (λ c, is_index c = true)
           [Index 2; Size; Index 3; Front; Index 2])
      = (Ret as2, Some s, t).
Proof.
  apply (observers_leave_no_mark Scenario.square 2
           [Index 2; Size; Index 3; Front; Index 2]).
  lia.
Defined.

Lemma second_get_changes_nothing_witness :
  let s := (Scenario.after [Index 2; Index 3]).1 in
  let r := operator_index 2 s in
  operator_index 2 r.1.2 = (Ret 4, r.1.2, []).
Proof.
  intros s r.
  apply (second_get_changes_nothing Scenario.square 2 s
           (Scenario.after [Index 2; Index 3]).2 2 4 r.1.2 r.2).
  - apply scenario_reachable.
  - vm_compute. reflexivity.
Defined.

Lemma get_moves_key_to_front_of_get_keys_witness :
  let s := (Scenario.after [Index 2; Index 3]).1 in
  ∃ s' t' ks,
    operator_index 4 s = (Ret 16, s', t')
    ∧ get_keys s = (Ret ks, s, [])
    ∧ get_keys s'
      = (Ret (4 :: take (2 - 1) (filter (λ y, y ≠ 4) ks)), s', []).
Proof.
  intros s.
  apply (get_moves_key_to_front_of_get_keys Scenario.square 2 s
           (Scenario.after [Index 2; Index 3]).2 4 16).
  - apply scenario_reachable.
  - reflexivity.
Defined.

Lemma cache_holds_most_recent_keys_witness :
  ∃ s t,
    program Scenario.square 2 (Index <$> [2; 3; 2; 4])
    = (Ret (seen Scenario.square <$> [2; 3; 2; 4]), Some s, t)
    ∧ access_order s
      = drop (length (recency [2; 3; 2; 4]) - 2) (recency [2; 3; 2; 4])
    ∧ cached_keys s
      = list_to_set
          (drop (length (recency [2; 3; 2; 4]) - 2) (recency [2; 3; 2; 4]))
    ∧ NoDup (recency [2; 3; 2; 4])
    ∧ (∀ k, k ∈ recency [2; 3; 2; 4] ↔ k ∈ [2; 3; 2; 4]).
Proof.
  apply (cache_holds_most_recent_keys Scenario.square 2 [2; 3; 2; 4]).
  - lia.
  - intros k _. eexists. reflexivity.
Defined.

Lemma computed_values_are_cached_or_evicted_witness :
  let s := (Scenario.after Scenario.gets).1 in
  let t := (Scenario.after Scenario.gets).2 in
  length (filter (λ k, returns Scenario.square k = true) (fn_calls t))
  = size (_key_to_value s) + length (evictions t).
Proof.
  intros s t.
  apply (computed_values_are_cached_or_evicted Scenario.square 2 s t).
  apply scenario_reachable.
Defined.
